(** * Utility functions of main.js: a shallow embedding and its properties

    The eight helpers of [src/main.js] (deepClone, debounce, flatten,
    deepEqual, toCamelCase, memoize, parseQuery, curry) are embedded as Rocq
    functions, one module per helper, over a common model of JavaScript
    values.

    Objects live in a heap and are named by their location, so that
    reference identity ([===] on objects), aliasing and cycles are what
    they are in the program.  Functions that recurse over the object graph
    take a recursion budget: running out of budget stands for a call that
    never returns (the stack overflow of an unbounded recursion).

    What the model covers:
    - values: [undefined], [null], booleans, numbers, strings, functions
      (by identity) and objects; no symbols and no bigints;
    - objects: Dates, Arrays, RegExps and ordinary objects with a
      prototype, holding own enumerable data properties with string keys
      (and no other own property than these and those that the language
      gives every object of their kind), and the names of the properties
      that their prototype chain holds before the built-in ones; every
      prototype chain ends in [Object.prototype];
    - calls and assignments go through the object, as in the language: in
      a method call ([obj.hasOwnProperty], [a.getTime], [a.toString]) an
      own property of that name, or one of the prototype chain, is what is
      called, and the call throws when an own property is not a function;
      an own property named [constructor] shadows the inherited one; an
      assignment to the key [__proto__] reaches the setter of
      [Object.prototype] and creates no own property;
    - what the model does not hold: the body of a function of the program
      and the objects behind a prototype.  A call or an assignment that
      depends on them has the answer [Beyond];
    - strings: sequences of bytes, the UTF-8 form of the text, with
      character classes and case mappings on the ASCII range;
    - host functions: [decodeURIComponent] is written out;
      [JSON.stringify] is a parameter; [setTimeout] and [clearTimeout] are
      ideal timers over a logical clock. *)

From Stdlib Require Import ZArith String Ascii List Bool Lia.
From stdpp Require Import base option list gmap strings fin_maps.

Set Warnings "-register-all".

Local Open Scope Z_scope.
Local Open Scope nat_scope.
Local Open Scope string_scope.
Local Open Scope list_scope.

(** Results of calls that may throw. *)
Inductive error : Type := URIError | TypeError.

Inductive outcome (A : Type) : Type :=
| Returns (a : A)
| Throws (e : error).
Arguments Returns {A} a.
Arguments Throws {A} e.

(** ** JavaScript values *)

Module JS.

(** Numbers.  [NaN] is kept apart because it is the one number that is not
    [===] to itself; every other number is represented by an integer (the
    helpers only compare and copy numbers, and on those operations any two
    distinct non-NaN doubles behave like two distinct integers). *)
Inductive number : Type :=
| NaN
| Num (z : Z).

Inductive prim : Type :=
| PUndefined
| PNull
| PBool (b : bool)
| PNumber (n : number)
| PString (s : string).

(** A value is a primitive, a function (named by its identity) or a
    reference to a heap object. *)
Inductive value : Type :=
| VPrim (p : prim)
| VFun (f : nat)
| VRef (l : nat).

Definition undefined : value := VPrim PUndefined.
Definition null : value := VPrim PNull.
Definition num (z : Z) : value := VPrim (PNumber (Num z)).
Definition str (s : string) : value := VPrim (PString s).

(** Identities of the built-in constructor functions. *)
Definition fn_Object : nat := 0.
Definition fn_Array : nat := 1.
Definition fn_Date : nat := 2.
Definition fn_RegExp : nat := 3.

(** Identity of [Object.prototype]. *)
Definition proto_Object : nat := 0.

(** The kinds of object the helpers distinguish: a Date with its time
    value, an Array, a RegExp with its source and its flags (as the
    [flags] property gives them), and any other object (one that is neither
    an Array nor an instance of Date or of RegExp), with the identity of
    its prototype and the constructor function found through that
    prototype. *)
Inductive kind : Type :=
| KDate (t : number)
| KArray
| KRegExp (source flags : string)
| KObject (proto : nat) (ctor : nat).

(** An object: its kind, its own enumerable string-keyed properties in
    enumeration order, and what its prototype chain holds.  Prototypes are
    not objects of the heap.  Of the chain the model holds the constructor
    (in the kind) and the names of the other properties found on it before
    those that the built-in prototypes have on their own (the methods and
    accessors of a class, the properties set on a prototype), nearest
    first, each with whether it is enumerable; beyond them the chain holds
    what the built-in prototypes hold. *)
Record obj : Type := mkObj {
  okind : kind;
  oprops : list (string * value);
  oinherited : list (string * bool)
}.

(** The heap: the object at location [l] is the [l]-th element. *)
Abbreviation heap := (list obj).

Definition number_eqb (x y : number) : bool :=
  match x, y with
  | Num a, Num b => Z.eqb a b
  | _, _ => false
  end.

(** [a === b] *)
Definition strict_eq (a b : value) : bool :=
  match a, b with
  | VPrim PUndefined, VPrim PUndefined => true
  | VPrim PNull, VPrim PNull => true
  | VPrim (PBool x), VPrim (PBool y) => Bool.eqb x y
  | VPrim (PNumber x), VPrim (PNumber y) => number_eqb x y
  | VPrim (PString x), VPrim (PString y) => String.eqb x y
  | VFun f, VFun g => Nat.eqb f g
  | VRef l, VRef k => Nat.eqb l k
  | _, _ => false
  end.

(** [typeof v === 'object'] *)
Definition typeof_object (v : value) : bool :=
  match v with
  | VPrim PNull => true
  | VRef _ => true
  | _ => false
  end.

(** [v == null] *)
Definition is_nullish (v : value) : bool :=
  match v with
  | VPrim PUndefined | VPrim PNull => true
  | _ => false
  end.

Fixpoint get_prop (key : string) (ps : list (string * value)) : option value :=
  match ps with
  | [] => None
  | (k, v) :: rest => if String.eqb key k then Some v else get_prop key rest
  end.

(** [o[key] = v] on the own properties: an existing key keeps its place, a
    new key is added last. *)
Fixpoint set_prop (key : string) (v : value) (ps : list (string * value))
  : list (string * value) :=
  match ps with
  | [] => [(key, v)]
  | (k, w) :: rest =>
      if String.eqb key k then (k, v) :: rest else (k, w) :: set_prop key v rest
  end.

(** [Object.keys(o)] *)
Definition keys (o : obj) : list string := map fst (oprops o).

(** [o[key]], [undefined] when [o] has no such own property. *)
Definition get (o : obj) (key : string) : value :=
  default undefined (get_prop key (oprops o)).

(** [o[key] = v] when the assignment defines or updates an own data
    property of [o]. *)
Definition put (key : string) (v : value) (o : obj) : obj :=
  mkObj (okind o) (set_prop key v (oprops o)) (oinherited o).

(** The built-in [Object.prototype.hasOwnProperty], called on [o]. *)
Definition hasOwnProperty (o : obj) (key : string) : bool :=
  match get_prop key (oprops o) with
  | Some _ => true
  | None => false
  end.

(** The inherited names that are enumerable and that no property nearer
    on the chain shadows. *)
Fixpoint inherited_enumerable (chain : list (string * bool)) : list string :=
  match chain with
  | [] => []
  | (name, enumerable) :: rest =>
      (if (enumerable : bool) then [name] else [])
      ++ List.filter (fun key => negb (String.eqb key name))
           (inherited_enumerable rest)
  end.

(** The keys that [for (key in o)] visits: the own ones, then the
    inherited ones that no own property shadows. *)
Definition enumerate (o : obj) : list string :=
  keys o ++ List.filter (fun key => negb (hasOwnProperty o key))
              (inherited_enumerable (oinherited o)).

(** [o instanceof Date], [Array.isArray(o)], [o instanceof RegExp] *)
Definition is_date (o : obj) : bool :=
  match okind o with KDate _ => true | _ => false end.
Definition is_array (o : obj) : bool :=
  match okind o with KArray => true | _ => false end.
Definition is_regexp (o : obj) : bool :=
  match okind o with KRegExp _ _ => true | _ => false end.

(** [o.constructor]: the own property of that name when there is one,
    otherwise the constructor inherited from the prototype. *)
Definition inherited_constructor (k : kind) : value :=
  match k with
  | KDate _ => VFun fn_Date
  | KArray => VFun fn_Array
  | KRegExp _ _ => VFun fn_RegExp
  | KObject _ c => VFun c
  end.

Definition constructor (o : obj) : value :=
  match get_prop "constructor" (oprops o) with
  | Some v => v
  | None => inherited_constructor (okind o)
  end.

(** The built-in [Date.prototype.getTime] and [RegExp.prototype.toString],
    called on [o]. *)
Definition getTime (o : obj) : number :=
  match okind o with KDate t => t | _ => NaN end.

Definition regexp_toString (o : obj) : string :=
  match okind o with
  | KRegExp s f => "/" ++ s ++ "/" ++ f
  | _ => ""
  end.

(** A plain object literal [{k1: v1, ...}]. *)
Definition literal (ps : list (string * value)) : obj :=
  mkObj (KObject proto_Object fn_Object) ps [].

(** *** Calls and assignments that go through the object *)

(** The answer of a call on the heap: it returns, it throws, it depends on
    what the model does not hold (the body of a function of the program,
    the objects behind a prototype, an object that a reference names
    outside the heap), or the recursion budget ran out before it
    returned. *)
Inductive answer (A : Type) : Type :=
| Done (a : A)
| Fails (e : error)
| Beyond
| Unfinished.
Arguments Done {A} a.
Arguments Fails {A} e.
Arguments Beyond {A}.
Arguments Unfinished {A}.

Definition answer_bind {A B : Type} (f : A -> answer B) (x : answer A)
  : answer B :=
  match x with
  | Done a => f a
  | Fails e => Fails e
  | Beyond => Beyond
  | Unfinished => Unfinished
  end.

#[global] Instance answer_mbind : MBind answer := @answer_bind.

(** The object at a location. *)
Definition deref (h : heap) (l : nat) : answer obj :=
  match h !! l with
  | Some o => Done o
  | None => Beyond
  end.

(** What [o.name] finds when [name] is the name of a built-in method of
    the prototype of [o]: the built-in method, when no property of that
    name comes before it; an own property that is not a function; or
    something else (an own property that is a function of the program, or
    a property of the prototype chain, of which the model holds the name
    only). *)
Inductive method : Type :=
| Builtin
| NotCallable
| Other.

(** The prototype chain of [o] holds a property named [name], enumerable
    or not, before the built-in ones. *)
Definition inherits (o : obj) (name : string) : bool :=
  existsb (fun p => String.eqb name (fst p)) (oinherited o).

Definition resolve (o : obj) (name : string) : method :=
  match get_prop name (oprops o) with
  | Some (VFun _) => Other
  | Some _ => NotCallable
  | None => if inherits o name then Other else Builtin
  end.

(** [o.name(...)], for [builtin] the answer of the built-in method. *)
Definition invoke {A : Type} (o : obj) (name : string) (builtin : answer A)
  : answer A :=
  match resolve o name with
  | Builtin => builtin
  | NotCallable => Fails TypeError
  | Other => Beyond
  end.

(** [obj.hasOwnProperty(key)] *)
Definition call_hasOwnProperty (o : obj) (key : string) : answer bool :=
  invoke o "hasOwnProperty" (Done (hasOwnProperty o key)).

(** [a.getTime()], for [a] a Date. *)
Definition call_getTime (o : obj) : answer number :=
  invoke o "getTime" (Done (getTime o)).

(** The properties that the built-in [RegExp.prototype.toString] reads
    from the object: [source] and [flags], and through the getter of
    [flags] the flag properties. *)
Definition regexp_reads : list string :=
  [ "source"; "flags"; "hasIndices"; "global"; "ignoreCase"; "multiline";
    "dotAll"; "unicode"; "unicodeSets"; "sticky" ].

(** [o] has an own property named [name], or inherits one that comes
    before the built-in ones. *)
Definition shadows (o : obj) (name : string) : bool :=
  hasOwnProperty o name || inherits o name.

(** [a.toString()], for [a] a RegExp. *)
Definition call_toString (o : obj) : answer string :=
  invoke o "toString"
    (if existsb (shadows o) regexp_reads then Beyond
     else Done (regexp_toString o)).

(** The keys under which an assignment to an object of kind [k] does not
    define an own enumerable property: [__proto__] for every object; the
    accessors of [RegExp.prototype], which have no setter, and [lastIndex]
    for a RegExp; [length] for an Array. *)
Definition special_keys (k : kind) : list string :=
  "__proto__" ::
  match k with
  | KRegExp _ _ => "lastIndex" :: regexp_reads
  | KArray => ["length"]
  | _ => []
  end.

(** [clone[key] = v], for [clone] the object at location [c].  The key
    [__proto__] reaches the setter that [Object.prototype] provides: a
    value that is neither an object nor [null] is dropped, the object
    itself makes the prototype chain cyclic, which throws, and any other
    object, a function or [null] becomes the prototype.  On a RegExp the
    built-in accessors have no setter, and the assignment is ignored
    (main.js is not strict code).  [lastIndex] of a RegExp and [length] of
    an Array are own properties that the language keeps non-enumerable,
    which the model does not hold.  Under a name that the prototype chain
    holds, an accessor or a read-only property may stand in the way of the
    assignment.  Every other key defines or updates an own property. *)
Definition assign (key : string) (v : value) (c : nat) (o : obj)
  : answer obj :=
  if String.eqb key "__proto__" then
    if inherits o "__proto__" then Beyond
    else
      match v with
      | VPrim PNull => Beyond
      | VPrim _ => Done o
      | VFun _ => Beyond
      | VRef r => if Nat.eqb r c then Fails TypeError else Beyond
      end
  else if is_regexp o && existsb (String.eqb key) regexp_reads then Done o
  else if existsb (String.eqb key) (special_keys (okind o)) then Beyond
  else if inherits o key then Beyond
  else Done (put key v o).

End JS.

Import JS.

(** ** 1. deepClone *)

Module Clone.

(** The heap together with the [hash] WeakMap of the call: original
    location to location of its clone. *)
Abbreviation state := (heap * gmap nat nat)%type.

(** The fresh object made for [obj] before its properties are copied:
    [new Date(obj)], [[]], [new RegExp(obj)] or
    [Object.create(Object.getPrototypeOf(obj))].  The constructors of Date
    and RegExp read the time value, the source and the flags of [obj] from
    the object itself, not through its methods. *)
Definition fresh_clone (o : obj) : obj :=
  if is_date o then mkObj (okind o) [] (oinherited o)
  else if is_array o then mkObj KArray [] (oinherited o)
  else if is_regexp o then mkObj (okind o) [] (oinherited o)
  else mkObj (okind o) [] (oinherited o).

(** The [for (const key in obj)] loop of the object at [l], writing into
    the clone at [c]; [rec] is the recursive call. *)
Fixpoint for_in (rec : value -> state -> answer (value * state))
    (l c : nat) (ks : list string) (s : state) : answer state :=
  match ks with
  | [] => Done s
  | key :: rest =>
      o ← deref (s.1) l;
      own ← call_hasOwnProperty o key;
      if (own : bool) then
        '(v, s1) ← rec (get o key) s;
        oc ← deref (s1.1) c;
        oc' ← assign key v c oc;
        for_in rec l c rest (<[c := oc']> (s1.1), s1.2)
      else for_in rec l c rest s
  end.

(** [deepClone(obj, hash)] *)
Fixpoint deepClone (fuel : nat) (v : value) (s : state)
  : answer (value * state) :=
  match fuel with
  | O => Unfinished
  | S n =>
      match v with
      | VPrim _ | VFun _ => Done (v, s)
      | VRef l =>
          match s.2 !! l with
          | Some c => Done (VRef c, s)
          | None =>
              o ← deref (s.1) l;
              let c := length (s.1) in
              let s1 := (s.1 ++ [fresh_clone o], <[l := c]> (s.2)) in
              s2 ← for_in (deepClone n) l c (enumerate o) s1;
              Done (VRef c, s2)
          end
      end
  end.

(** [deepClone(obj)]: the default [hash = new WeakMap()]. *)
Definition deepClone_top (fuel : nat) (v : value) (h : heap)
  : answer (value * heap) :=
  '(v', s) ← deepClone fuel v (h, ∅);
  Done (v', s.1).

End Clone.

(** ** 4. deepEqual *)

Module Equal.

(** [keysB.includes(key)] *)
Definition includes (key : string) (ks : list string) : bool :=
  existsb (String.eqb key) ks.

(** The [for (const key of keysA)] loop. *)
Fixpoint for_of (rec : value -> value -> answer bool) (oa ob : obj)
    (ks : list string) : answer bool :=
  match ks with
  | [] => Done true
  | key :: rest =>
      if negb (includes key (keys ob)) then Done false
      else
        r ← rec (get oa key) (get ob key);
        if negb r then Done false else for_of rec oa ob rest
  end.

(** [a.getTime() === b.getTime()]: the call on [a] comes first. *)
Definition same_time (oa ob : obj) : answer bool :=
  ta ← call_getTime oa;
  tb ← call_getTime ob;
  Done (number_eqb ta tb).

(** [a.toString() === b.toString()] *)
Definition same_string (oa ob : obj) : answer bool :=
  sa ← call_toString oa;
  sb ← call_toString ob;
  Done (String.eqb sa sb).

(** [deepEqual(a, b)] *)
Fixpoint deepEqual (fuel : nat) (h : heap) (a b : value) : answer bool :=
  match fuel with
  | O => Unfinished
  | S n =>
      if strict_eq a b then Done true
      else if is_nullish a || is_nullish b
              || negb (typeof_object a) || negb (typeof_object b)
      then Done false
      else
        match a, b with
        | VRef la, VRef lb =>
            oa ← deref h la;
            ob ← deref h lb;
            if negb (strict_eq (constructor oa) (constructor ob)) then Done false
            else if is_date oa && is_date ob then same_time oa ob
            else if is_regexp oa && is_regexp ob then same_string oa ob
            else if negb (Nat.eqb (length (keys oa)) (length (keys ob)))
            then Done false
            else for_of (deepEqual n h) oa ob (keys oa)
        | _, _ => Done false
        end
  end.

End Equal.

(** ** 3. flatten *)

Module Flatten.

(** A nested array: an element is either a value that is not an array or
    an array of elements. *)
Inductive elem (A : Type) : Type :=
| Atom (x : A)
| Arr (items : list (elem A)).
Arguments Atom {A} x.
Arguments Arr {A} items.

(** [flatten(arr)], for [arr] the array [Arr items]:
    [arr.reduce((flat, toFlatten) => flat.concat(...), [])].  The function
    is only ever applied to arrays; the [Atom] case is there for
    totality. *)
Fixpoint flatten {A : Type} (arr : elem A) : list (elem A) :=
  match arr with
  | Atom _ => []
  | Arr items =>
      fold_left
        (fun flat toFlatten =>
           flat ++ match toFlatten with
                   | Arr _ => flatten toFlatten
                   | Atom _ => [toFlatten]
                   end)
        items []
  end.

End Flatten.
(** ** 2. debounce *)

Module Debounce.

(** The host's timers are modelled as an ideal one-shot timer queue over a
    logical millisecond clock: [setTimeout] files a timer due [delay] ms
    from now, [clearTimeout] removes it, and letting time pass runs the
    timers that have come due, in order.  [A] is the type of argument
    lists. *)
Section Model.
Context {A : Type}.

Record timer : Type := mkTimer { tid : nat; due : Z; targs : A }.

Record world : Type := mkWorld {
  now : Z;
  next_id : nat;
  pending : list timer;
  timeoutId : option nat;
  fired : list (Z * A)
}.

(** [clearTimeout(id)]; an [undefined] or stale handle clears nothing. *)
Definition clearTimeout (id : option nat) (w : world) : world :=
  match id with
  | None => w
  | Some i =>
      mkWorld (now w) (next_id w)
        (List.filter (fun tm => negb (Nat.eqb (tid tm) i)) (pending w))
        (timeoutId w) (fired w)
  end.

(** [setTimeout(() => func.apply(this, args), delay)] *)
Definition setTimeout (args : A) (delay : Z) (w : world) : nat * world :=
  (next_id w,
   mkWorld (now w) (S (next_id w))
     (pending w ++ [mkTimer (next_id w) (now w + Z.max 0 delay)%Z args])
     (timeoutId w) (fired w)).

(** The function returned by [debounce(func, delay)], called with [args]. *)
Definition debounced (delay : Z) (args : A) (w : world) : world :=
  let w1 := clearTimeout (timeoutId w) w in
  let '(id, w2) := setTimeout args delay w1 in
  mkWorld (now w2) (next_id w2) (pending w2) (Some id) (fired w2).

Fixpoint insert_by_due (tm : timer) (q : list timer) : list timer :=
  match q with
  | [] => [tm]
  | x :: rest =>
      if Z.leb (due x) (due tm) then x :: insert_by_due tm rest
      else tm :: x :: rest
  end.

Definition by_due (q : list timer) : list timer :=
  fold_left (fun acc tm => insert_by_due tm acc) q [].

(** Time passes until [t]: every timer due by then runs [func] with the
    arguments it was filed with, earliest first. *)
Definition advance (t : Z) (w : world) : world :=
  let ready := List.filter (fun tm => Z.leb (due tm) t) (pending w) in
  let waiting := List.filter (fun tm => negb (Z.leb (due tm) t)) (pending w) in
  mkWorld (Z.max (now w) t) (next_id w) waiting (timeoutId w)
    (fired w ++ map (fun tm => (due tm, targs tm)) (by_due ready)).

(** A history of calls to the debounced function, each at its time. *)
Definition run (delay : Z) (calls : list (Z * A)) (w : world) : world :=
  fold_left (fun w c => debounced delay (snd c) (advance (fst c) w)) calls w.

(** [debounce(func, delay)], called at time [t0]: [timeoutId] is declared
    and left [undefined], no timer is filed, and the closure is
    returned. *)
Definition debounce (delay : Z) (t0 : Z) : (A -> world -> world) * world :=
  (debounced delay, mkWorld t0 0 [] None []).

(** Consecutive calls are less than [delay] apart, starting at [t]. *)
Fixpoint burst (delay : Z) (t : Z) (calls : list (Z * A)) : Prop :=
  match calls with
  | [] => True
  | c :: rest => (t <= fst c < t + delay)%Z /\ burst delay (fst c) rest
  end.

(** At most one timer is pending, and it is the one [timeoutId] names. *)
Definition single_pending (w : world) : Prop :=
  pending w = [] \/
  exists tm, pending w = [tm] /\ timeoutId w = Some (tid tm).

(** The state right after a call at time [t] with arguments [a]: the only
    pending timer is that call's, due [delay] later. *)
Definition armed (delay t : Z) (a : A) (w : world) : Prop :=
  now w = t /\
  exists id, pending w = [mkTimer id (t + delay)%Z a] /\ timeoutId w = Some id.

End Model.
Arguments timer : clear implicits.
Arguments world : clear implicits.

End Debounce.

(** ** 6. memoize *)

Module Memoize.

(** [W] is whatever state [fn] reads and writes; [JSON_stringify] is the
    host's serializer, which reads the arguments in the current state and
    throws on what it cannot serialize. *)
Section Model.
Context {W : Type}.
Variable JSON_stringify : W -> list value -> outcome string.
Variable fn : list value -> W -> outcome (value * W).

(** The function returned by [memoize(fn)], called with [args]; the state
    is the [cache] Map of the closure and the state [fn] works on. *)
Definition memoized (args : list value) (s : gmap string value * W)
  : outcome (value * (gmap string value * W)) :=
  match JSON_stringify s.2 args with
  | Throws e => Throws e
  | Returns key =>
      if bool_decide (is_Some (s.1 !! key))
      then Returns (default undefined (s.1 !! key), s)
      else
        match fn args s.2 with
        | Throws e => Throws e
        | Returns (r, w) =>
            let cache := <[key := r]> (s.1) in
            Returns (default undefined (cache !! key), (cache, w))
        end
  end.

(** [memoize(fn)]: the closure, and the empty [cache] it starts with. *)
Definition memoize :
  (list value -> gmap string value * W ->
   outcome (value * (gmap string value * W))) * gmap string value :=
  (memoized, ∅).

(** What may happen between two calls of the memoized function: other
    calls of it that return, and anything else that changes [W] only (the
    cache is private to the closure). *)
Inductive later : gmap string value * W -> gmap string value * W -> Prop :=
| later_now s : later s s
| later_call s args r s1 s2 :
    memoized args s = Returns (r, s1) -> later s1 s2 -> later s s2
| later_world cache w w1 s2 :
    later (cache, w1) s2 -> later (cache, w) s2.

End Model.

(** [fn] with a counter of its invocations added to its state. *)
Definition counting {W : Type} (fn : list value -> W -> outcome (value * W))
    (args : list value) (s : W * nat) : outcome (value * (W * nat)) :=
  match fn args s.1 with
  | Throws e => Throws e
  | Returns (r, w) => Returns (r, (w, S s.2))
  end.

End Memoize.

(** ** 8. curry *)

Module Curry.

(** [fn] takes its argument list; [fn_length] is [fn.length]. *)
Section Model.
Context {A R : Type}.
Variable fn_length : nat.
Variable fn : list A -> R.

(** What a call returns: the result of [fn], or the inner
    [function(...moreArgs)] closure, which is determined by the [args] it
    captured. *)
Inductive result : Type :=
| Value (r : R)
| Partial (args : list A).

(** [curried(...args)] *)
Definition curried (args : list A) : result :=
  if Nat.leb fn_length (length args) then Value (fn args) else Partial args.

(** Calling the closure that captured [args] with [moreArgs]:
    [curried.apply(this, args.concat(moreArgs))]. *)
Definition call_partial (args moreArgs : list A) : result :=
  curried (args ++ moreArgs).

(** A chain of calls [f(a1)(a2)...(ak)] on what a call returned.  Calling
    the result of [fn] is outside this model ([None]). *)
Fixpoint chain (r : result) (calls : list (list A)) : option result :=
  match calls with
  | [] => Some r
  | moreArgs :: rest =>
      match r with
      | Partial args => chain (call_partial args moreArgs) rest
      | Value _ => None
      end
  end.

(** [curry(fn)] returns [curried], which is called like a closure that has
    captured no argument: [curried(...args)] is [call_partial [] args]. *)
Definition curry : result := Partial [].

End Model.
Arguments result : clear implicits.

(** [(a, b, c) => a + b + c] on numbers; a missing argument is
    [undefined], which [+] turns into NaN. *)
Definition number_add (x y : number) : number :=
  match x, y with
  | Num a, Num b => Num (a + b)
  | _, _ => NaN
  end.

Definition add3 (args : list number) : number :=
  number_add (number_add (nth 0 args NaN) (nth 1 args NaN)) (nth 2 args NaN).

End Curry.

(** ** Strings

    A string is the sequence of its UTF-8 bytes.  The character classes
    and case mappings below are those of the language on the ASCII range.
    They leave every other byte as it is, which is not what the language
    does with letters and white space outside ASCII: what is proved of
    toCamelCase is stated of ASCII text. *)

Module Str.

Local Open Scope N_scope.

Definition code (c : ascii) : N := N_of_ascii c.

Definition in_range (lo hi : N) (c : ascii) : bool :=
  N.leb lo (code c) && N.leb (code c) hi.

(** [c.toUpperCase()] and [c.toLowerCase()] on one ASCII character. *)
Definition toUpperCase (c : ascii) : ascii :=
  if in_range 97 122 c then ascii_of_N (code c - 32) else c.

Definition toLowerCase (c : ascii) : ascii :=
  if in_range 65 90 c then ascii_of_N (code c + 32) else c.

(** [s.split(sep)] for a one-character separator: never empty. *)
Fixpoint split (sep : ascii) (s : string) : list string :=
  match s with
  | EmptyString => [EmptyString]
  | String c rest =>
      if Ascii.eqb c sep then EmptyString :: split sep rest
      else match split sep rest with
           | [] => [String c EmptyString]
           | x :: xs => String c x :: xs
           end
  end.

(** [s.startsWith(c)] and [s.slice(1)] *)
Definition startsWith (c : ascii) (s : string) : bool :=
  match s with
  | String d _ => Ascii.eqb d c
  | EmptyString => false
  end.

Definition slice1 (s : string) : string :=
  match s with
  | String _ rest => rest
  | EmptyString => EmptyString
  end.

(** Truthiness of a string: non-empty. *)
Definition truthy (s : string) : bool :=
  match s with EmptyString => false | _ => true end.

End Str.

(** ** 5. toCamelCase *)

Module CamelCase.
Import Str.
Local Open Scope N_scope.

(** The class [\s] on the ASCII range: tab, line feed, vertical tab, form
    feed, carriage return, space. *)
Definition is_space (c : ascii) : bool :=
  in_range 9 13 c || N.eqb (code c) 32.

(** The class [[-_\s]] *)
Definition is_delim (c : ascii) : bool :=
  N.eqb (code c) 45 || N.eqb (code c) 95 || is_space c.

(** What [.] does not match. *)
Definition is_line_terminator (c : ascii) : bool :=
  N.eqb (code c) 10 || N.eqb (code c) 13.

(** [str.replace(/[-_\s]+(.)?/g, (_, c) => c ? c.toUpperCase() : '')],
    scanning left to right; [in_run] holds while the scan is inside a match
    that has consumed at least one delimiter.  The greedy [+] takes the
    whole run of delimiters, [(.)?] then takes the next character when
    there is one that [.] matches, and the match is replaced by that
    character in upper case, or by nothing. *)
Fixpoint replace_runs (in_run : bool) (s : string) : string :=
  match s with
  | EmptyString => EmptyString
  | String c rest =>
      if is_delim c then replace_runs true rest
      else if in_run && negb (is_line_terminator c)
      then String (toUpperCase c) (replace_runs false rest)
      else String c (replace_runs false rest)
  end.

(** [s.replace(/^./, firstChar => firstChar.toLowerCase())] *)
Definition lower_first (s : string) : string :=
  match s with
  | EmptyString => EmptyString
  | String c rest =>
      if is_line_terminator c then s else String (toLowerCase c) rest
  end.

Definition toCamelCase (str : string) : string :=
  lower_first (replace_runs false str).

End CamelCase.

(** ** 7. parseQuery *)

Module Query.
Import Str.
Local Open Scope N_scope.

(** *** decodeURIComponent *)

Definition hex_digit (c : ascii) : option N :=
  if in_range 48 57 c then Some (code c - 48)
  else if in_range 65 70 c then Some (code c - 55)
  else if in_range 97 102 c then Some (code c - 87)
  else None.

(** A character of the input as the decoder sees it: itself, or the byte
    of a [%XX] escape. *)
Inductive item : Type :=
| Raw (c : ascii)
| Esc (b : N).

(** First pass: every [%] must be followed by two hexadecimal digits. *)
Fixpoint unescape (s : string) : outcome (list item) :=
  match s with
  | EmptyString => Returns []
  | String c rest =>
      if N.eqb (code c) 37 then
        match rest with
        | String h1 (String h2 rest2) =>
            match hex_digit h1, hex_digit h2 with
            | Some a, Some b =>
                match unescape rest2 with
                | Returns items => Returns (Esc (16 * a + b) :: items)
                | Throws e => Throws e
                end
            | _, _ => Throws URIError
            end
        | _ => Throws URIError
        end
      else
        match unescape rest with
        | Returns items => Returns (Raw c :: items)
        | Throws e => Throws e
        end
  end.

Definition is_cont (b : N) : bool := N.leb 128 b && N.leb b 191.

Definition byte (b : N) : ascii := ascii_of_N b.

(** Second pass: the escaped bytes from 0x80 up must spell well-formed
    UTF-8 (no stray continuation byte, no overlong form, no surrogate,
    nothing above U+10FFFF), each sequence made of escapes only. *)
Fixpoint utf8 (items : list item) : outcome string :=
  match items with
  | [] => Returns EmptyString
  | Raw c :: rest =>
      match utf8 rest with
      | Returns s => Returns (String c s)
      | Throws e => Throws e
      end
  | Esc b :: rest =>
      if N.ltb b 128 then
        match utf8 rest with
        | Returns s => Returns (String (byte b) s)
        | Throws e => Throws e
        end
      else if N.leb 194 b && N.leb b 223 then
        match rest with
        | Esc b2 :: rest2 =>
            if is_cont b2 then
              match utf8 rest2 with
              | Returns s => Returns (String (byte b) (String (byte b2) s))
              | Throws e => Throws e
              end
            else Throws URIError
        | _ => Throws URIError
        end
      else if N.leb 224 b && N.leb b 239 then
        match rest with
        | Esc b2 :: Esc b3 :: rest3 =>
            if is_cont b2 && is_cont b3
               && negb (N.eqb b 224 && N.ltb b2 160)
               && negb (N.eqb b 237 && N.leb 160 b2)
            then
              match utf8 rest3 with
              | Returns s =>
                  Returns (String (byte b) (String (byte b2)
                             (String (byte b3) s)))
              | Throws e => Throws e
              end
            else Throws URIError
        | _ => Throws URIError
        end
      else if N.leb 240 b && N.leb b 244 then
        match rest with
        | Esc b2 :: Esc b3 :: Esc b4 :: rest4 =>
            if is_cont b2 && is_cont b3 && is_cont b4
               && negb (N.eqb b 240 && N.ltb b2 144)
               && negb (N.eqb b 244 && N.leb 144 b2)
            then
              match utf8 rest4 with
              | Returns s =>
                  Returns (String (byte b) (String (byte b2)
                             (String (byte b3) (String (byte b4) s))))
              | Throws e => Throws e
              end
            else Throws URIError
        | _ => Throws URIError
        end
      else Throws URIError
  end.

Definition decodeURIComponent (s : string) : outcome string :=
  match unescape s with
  | Returns items => utf8 items
  | Throws e => Throws e
  end.

(** *** parseQuery *)

(** [params[key] = value] on the object literal [params]: assigning a
    string to [__proto__] goes to the inherited setter, which ignores it. *)
Fixpoint set_param (key value : string) (ps : list (string * string))
  : list (string * string) :=
  match ps with
  | [] => [(key, value)]
  | (k, w) :: rest =>
      if String.eqb key k then (k, value) :: rest
      else (k, w) :: set_param key value rest
  end.

Definition assign (key value : string) (params : list (string * string))
  : list (string * string) :=
  if String.eqb key "__proto__" then params else set_param key value params.

(** The body of the [forEach] callback on the pair [p]. *)
Definition each_pair (params : list (string * string)) (p : string)
  : outcome (list (string * string)) :=
  let parts := split "="%char p in
  let key := hd EmptyString parts in
  let value := nth_error parts 1%nat in
  if truthy key then
    match decodeURIComponent key with
    | Throws e => Throws e
    | Returns k =>
        match value with
        | Some v =>
            if truthy v then
              match decodeURIComponent v with
              | Throws e => Throws e
              | Returns dv => Returns (assign k dv params)
              end
            else Returns (assign k EmptyString params)
        | None => Returns (assign k EmptyString params)
        end
    end
  else Returns params.

Fixpoint forEach (pairs : list string) (params : list (string * string))
  : outcome (list (string * string)) :=
  match pairs with
  | [] => Returns params
  | p :: rest =>
      match each_pair params p with
      | Throws e => Throws e
      | Returns params1 => forEach rest params1
      end
  end.

Definition parseQuery (queryString : string)
  : outcome (list (string * string)) :=
  let query :=
    if startsWith "?"%char queryString then slice1 queryString
    else queryString in
  forEach (split "&"%char query) [].

(** The strings [parseQuery] hands to [decodeURIComponent]: of each pair
    with a non-empty key, the key, and the value when it is non-empty. *)
Definition decoded_of_pair (p : string) : list string :=
  let parts := split "="%char p in
  let key := hd EmptyString parts in
  if truthy key then
    key :: match nth_error parts 1%nat with
           | Some v => if truthy v then [v] else []
           | None => []
           end
  else [].

Definition query_of (queryString : string) : string :=
  if startsWith "?"%char queryString then slice1 queryString else queryString.

Definition decoded_parts (queryString : string) : list string :=
  concat (map decoded_of_pair (split "&"%char (query_of queryString))).

Definition decodable (s : string) : bool :=
  match decodeURIComponent s with Returns _ => true | Throws _ => false end.

(** The character [c] does not occur in the string. *)
Fixpoint lacks (c : ascii) (s : string) : bool :=
  match s with
  | EmptyString => true
  | String d rest => negb (Ascii.eqb d c) && lacks c rest
  end.

(** None of [&], [=], [%] and [?] occurs in the string. *)
Definition unreserved (s : string) : bool :=
  lacks "&"%char s && lacks "="%char s && lacks "%"%char s
  && lacks "?"%char s.

(** No [%] in the string. *)
Fixpoint percent_free (s : string) : bool :=
  match s with
  | EmptyString => true
  | String c rest => negb (N.eqb (code c) 37) && percent_free rest
  end.

End Query.

(** ** Heaps that a JavaScript program can build *)

Module Heap.

(** A value names an object of the first [n] locations, if it names one. *)
Definition closed (n : nat) (v : value) : bool :=
  match v with
  | VRef l => Nat.ltb l n
  | _ => true
  end.

Fixpoint distinct (ks : list string) : bool :=
  match ks with
  | [] => true
  | k :: rest => negb (existsb (String.eqb k) rest) && distinct rest
  end.

(** No object has the same key twice. *)
Definition unique_keys (h : heap) : bool :=
  forallb (fun o => distinct (keys o)) h.

(** Every reference held by an object of the heap is to an object of the
    heap. *)
Definition no_dangling (h : heap) : bool :=
  forallb (fun o => forallb (fun kv => closed (length h) (snd kv)) (oprops o)) h.

Definition well_formed (h : heap) : bool := unique_keys h && no_dangling h.

(** The object leaves [hasOwnProperty] to the built-in method and has no
    own property under a key that an assignment treats apart ([__proto__];
    for a RegExp the names of the built-in accessors; a name that its
    prototype chain holds): what deepClone needs of the objects it copies,
    for the loop to visit and assign every own property. *)
Definition tame (o : obj) : bool :=
  match resolve o "hasOwnProperty" with Builtin => true | _ => false end
  && negb (existsb (hasOwnProperty o) (special_keys (okind o)))
  && negb (existsb (inherits o) (keys o)).

Definition ordinary (h : heap) : bool := forallb tame h.

(** A Date that leaves [getTime] to the built-in method; a RegExp that
    leaves [toString], and the properties it reads, to the built-in ones:
    what deepEqual needs of the Dates and RegExps it compares. *)
Definition builtin_methods (o : obj) : bool :=
  match okind o with
  | KDate _ => match resolve o "getTime" with Builtin => true | _ => false end
  | KRegExp _ _ =>
      match resolve o "toString" with Builtin => true | _ => false end
      && negb (existsb (shadows o) regexp_reads)
  | _ => true
  end.

Definition unshadowed (h : heap) : bool := forallb builtin_methods h.

End Heap.

(** ** What deepClone builds *)

Module CloneSpec.
Import Heap Clone.

(** [v'] is what [v] becomes in the copy: itself when it is a primitive or
    a function, the clone registered in [m] when it is an object. *)
Definition image (m : gmap nat nat) (v v' : value) : Prop :=
  match v with
  | VRef l => exists c, m !! l = Some c /\ v' = VRef c
  | _ => v' = v
  end.

(** Property lists that correspond key by key, in order, with values that
    are images. *)
Definition copied (m : gmap nat nat) (ps ps' : list (string * value)) : Prop :=
  Forall2 (fun kv kv' => fst kv' = fst kv /\ image m (snd kv) (snd kv')) ps ps'.

Definition copy_of (m : gmap nat nat) (o oc : obj) : Prop :=
  okind oc = okind o /\ oinherited oc = oinherited o /\
  copied m (oprops o) (oprops oc).

(** The entry [l -> c] of the hash is finished: the object at [c] is a
    complete copy of the original at [l]. *)
Definition finished (h0 h : heap) (m : gmap nat nat) (l c : nat) : Prop :=
  exists o oc, h0 !! l = Some o /\ h !! c = Some oc /\ copy_of m o oc.

Definition hash_ok (h0 : heap) (m : gmap nat nat) : Prop :=
  forall l c, m !! l = Some c -> l < length h0.

(** What a call that started in [(h, m)] on [v] leaves behind. *)
Record clone_post (h0 h : heap) (m : gmap nat nat) (v v' : value)
    (h' : heap) (m' : gmap nat nat) : Prop := mkPost {
  post_heap : h `prefix_of` h';
  post_hash : m ⊆ m';
  post_ok : hash_ok h0 m';
  post_image : image m' v v';
  post_new : forall l c, m' !! l = Some c -> m !! l = None ->
             length h <= c /\ finished h0 h' m' l c
}.

Definition clone_ok (h0 : heap)
    (rec : value -> state -> answer (value * state)) (n : nat) : Prop :=
  forall v h m,
    h0 `prefix_of` h -> hash_ok h0 m -> closed (length h0) v = true ->
    length h0 - size m < n ->
    exists v' h' m',
      rec v (h, m) = Done (v', (h', m')) /\ clone_post h0 h m v v' h' m'.

(** [obj[k1][k2]...]: the value at the end of a path of own properties,
    when every step but the last finds an object. *)
Fixpoint walk (h : heap) (v : value) (path : list string) : option value :=
  match path with
  | [] => Some v
  | key :: rest =>
      match v with
      | VRef l => o ← h !! l; w ← get_prop key (oprops o); walk h w rest
      | _ => None
      end
  end.




End CloneSpec.

(** ** deepEqual as the specification words it *)

Module EqualSpec.
Import Equal.

(** The body of deepEqual on two distinct objects. *)
Definition compare_objects (rec : value -> value -> answer bool)
    (oa ob : obj) : answer bool :=
  if negb (strict_eq (constructor oa) (constructor ob)) then Done false
  else if is_date oa && is_date ob then same_time oa ob
  else if is_regexp oa && is_regexp ob then same_string oa ob
  else if negb (Nat.eqb (length (keys oa)) (length (keys ob)))
  then Done false
  else for_of rec oa ob (keys oa).

(** Same concrete kind: same constructor. *)
Definition same_constructor (oa ob : obj) : Prop :=
  strict_eq (constructor oa) (constructor ob) = true.

(** The sets of key names have equal cardinality and identical
    membership. *)
Definition same_keys (oa ob : obj) : Prop :=
  length (keys oa) = length (keys ob) /\
  forall k, In k (keys oa) <-> In k (keys ob).

Definition both_dates (oa ob : obj) : Prop :=
  is_date oa = true /\ is_date ob = true.

Definition both_regexps (oa ob : obj) : Prop :=
  is_regexp oa = true /\ is_regexp ob = true.

Inductive DeepEq (h : heap) : value -> value -> Prop :=
| DeepEq_identical a b :
    strict_eq a b = true -> DeepEq h a b
| DeepEq_date la lb oa ob t :
    h !! la = Some oa -> h !! lb = Some ob ->
    same_constructor oa ob ->
    okind oa = KDate (Num t) -> okind ob = KDate (Num t) ->
    DeepEq h (VRef la) (VRef lb)
| DeepEq_regexp la lb oa ob :
    h !! la = Some oa -> h !! lb = Some ob ->
    same_constructor oa ob ->
    ~ both_dates oa ob -> both_regexps oa ob ->
    regexp_toString oa = regexp_toString ob ->
    DeepEq h (VRef la) (VRef lb)
| DeepEq_object la lb oa ob :
    h !! la = Some oa -> h !! lb = Some ob ->
    same_constructor oa ob ->
    ~ both_dates oa ob -> ~ both_regexps oa ob ->
    same_keys oa ob ->
    (forall k, In k (keys oa) -> DeepEq h (get oa k) (get ob k)) ->
    DeepEq h (VRef la) (VRef lb).

(** The same relation with what the calls [a.getTime()] and
    [a.toString()] add to it: two Dates, or two RegExps, are compared by
    their built-in methods only when both leave those methods alone. *)
Inductive Compared (h : heap) : value -> value -> Prop :=
| Compared_identical a b :
    strict_eq a b = true -> Compared h a b
| Compared_date la lb oa ob t :
    h !! la = Some oa -> h !! lb = Some ob ->
    same_constructor oa ob ->
    okind oa = KDate (Num t) -> okind ob = KDate (Num t) ->
    Heap.builtin_methods oa = true -> Heap.builtin_methods ob = true ->
    Compared h (VRef la) (VRef lb)
| Compared_regexp la lb oa ob :
    h !! la = Some oa -> h !! lb = Some ob ->
    same_constructor oa ob ->
    ~ both_dates oa ob -> both_regexps oa ob ->
    regexp_toString oa = regexp_toString ob ->
    Heap.builtin_methods oa = true -> Heap.builtin_methods ob = true ->
    Compared h (VRef la) (VRef lb)
| Compared_object la lb oa ob :
    h !! la = Some oa -> h !! lb = Some ob ->
    same_constructor oa ob ->
    ~ both_dates oa ob -> ~ both_regexps oa ob ->
    same_keys oa ob ->
    (forall k, In k (keys oa) -> Compared h (get oa k) (get ob k)) ->
    Compared h (VRef la) (VRef lb).

End EqualSpec.

(** ** flatten as the specification words it *)

Module FlattenSpec.
Import Flatten.

(** The non-array elements reached by unnesting, left to right, depth
    first. *)
Fixpoint leaves {A : Type} (e : elem A) : list A :=
  match e with
  | Atom x => [x]
  | Arr items => concat (map leaves items)
  end.

Definition is_atom {A : Type} (e : elem A) : bool :=
  match e with Atom _ => true | Arr _ => false end.

(** What [concat] appends for one element. *)
Definition spread {A : Type} (toFlatten : elem A) : list (elem A) :=
  match toFlatten with
  | Arr _ => flatten toFlatten
  | Atom _ => [toFlatten]
  end.

End FlattenSpec.

(** ** Sample inputs of the harness and of the specification *)

Module Samples.
Import Flatten.


(** [{a:1,b:{c:2}}] at 1 and at 3, [{a:1,b:{c:3}}] at 5, [new Date(5)] at
    6 and at 7. *)
Definition h_equal : heap :=
  [ literal [("c", num 2)]; literal [("a", num 1); ("b", VRef 0)];
    literal [("c", num 2)]; literal [("a", num 1); ("b", VRef 2)];
    literal [("c", num 3)]; literal [("a", num 1); ("b", VRef 4)];
    mkObj (KDate (Num 5)) [] []; mkObj (KDate (Num 5)) [] [] ].




(** [{f: function () {}}], the function being number 7 *)
Definition h_function : heap := [literal [("f", VFun 7)]].

(** [{inner: {f: function () {}}}], the inner object at 0 *)
Definition h_nested_function : heap :=
  [literal [("f", VFun 7)]; literal [("inner", VRef 0)]].


(** [{hasOwnProperty: 1}] *)
Definition h_own_method : heap := [literal [("hasOwnProperty", num 1)]].

(** [Object.assign(new Date(5), {getTime: 1})] at 0 and [new Date(5)] at
    1 *)
Definition h_date_method : heap :=
  [ mkObj (KDate (Num 5)) [("getTime", num 1)] [];
    mkObj (KDate (Num 5)) [] [] ].


(** [[1, [2, [3, 4], 5]]] *)
Definition nested : elem Z :=
  Arr [Atom 1%Z; Arr [Atom 2%Z; Arr [Atom 3%Z; Atom 4%Z]; Atom 5%Z]].

(** [(a, b) => a + b] of the harness, on numbers, with nothing else to
    change; and a serializer that knows the key of [(2, 3)]. *)
Definition add2 (args : list value) (w : unit) : outcome (value * unit) :=
  match args with
  | VPrim (PNumber x) :: VPrim (PNumber y) :: _ =>
      Returns (VPrim (PNumber (Curry.number_add x y)), w)
  | _ => Throws TypeError
  end.

Definition stringify_2_3 (w : unit) (args : list value) : outcome string :=
  Returns "[2,3]".

End Samples.

(** ** Notions used by the further properties *)

Module Further.
Import Flatten.

(** The hash sends distinct originals to distinct clones, and every clone
    it names lies below [n]. *)
Definition injective (m : gmap nat nat) : Prop :=
  forall l1 l2 c, m !! l1 = Some c -> m !! l2 = Some c -> l1 = l2.

Definition range_below (n : nat) (m : gmap nat nat) : Prop :=
  forall l c, m !! l = Some c -> c < n.

(** What a call of deepClone does to the sizes of the heap and of the
    hash: one new object for each new entry, each new entry naming a new
    object. *)
Definition counted (h : heap) (m : gmap nat nat) (h' : heap)
    (m' : gmap nat nat) : Prop :=
  length h <= length h' /\
  length h' + size m = length h + size m' /\
  (range_below (length h) m -> injective m ->
   range_below (length h') m' /\ injective m').

(** [v] is the number NaN. *)
Definition is_nan (v : value) : bool :=
  match v with VPrim (PNumber NaN) => true | _ => false end.

(** [v] is an object. *)
Definition is_ref (v : value) : bool :=
  match v with VRef _ => true | _ => false end.

(** [v] can be called: it is a function. *)
Definition callable (v : value) : bool :=
  match v with VFun _ => true | _ => false end.

(** [params[key]] on the mapping that parseQuery returns. *)
Fixpoint get_param (key : string) (ps : list (string * string))
  : option string :=
  match ps with
  | [] => None
  | (k, v) :: rest => if String.eqb key k then Some v else get_param key rest
  end.

(** What holds of the mapping all along the loop of parseQuery: no key
    twice, no key [__proto__], no empty key. *)
Definition tidy (params : list (string * string)) : Prop :=
  List.NoDup (map fst params) /\
  ~ In "__proto__" (map fst params) /\ ~ In EmptyString (map fst params).

(** Every character of the string is in the ASCII range, where the case
    mappings of the model are those of the language. *)
Fixpoint ascii_only (s : string) : bool :=
  match s with
  | EmptyString => true
  | String c rest => N.ltb (Str.code c) 128 && ascii_only rest
  end.

(** No character of the string is a delimiter of toCamelCase. *)
Fixpoint no_delims (s : string) : bool :=
  match s with
  | EmptyString => true
  | String c rest => negb (CamelCase.is_delim c) && no_delims rest
  end.

Section Calls.
Context {A : Type}.

(** The calls of a history that are not followed by another call before
    their timer is due. *)
Fixpoint trailing (delay : Z) (calls : list (Z * A)) : list (Z * A) :=
  match calls with
  | [] => []
  | c :: rest =>
      match rest with
      | [] => [c]
      | c1 :: _ =>
          if Z.ltb (fst c + delay) (fst c1) then c :: trailing delay rest
          else trailing delay rest
      end
  end.

(** The calls come in order of time, and none comes at the very instant
    the timer of the call before it is due. *)
Fixpoint spaced (delay : Z) (calls : list (Z * A)) : Prop :=
  match calls with
  | [] => True
  | c :: rest =>
      match rest with
      | [] => True
      | c1 :: _ => (fst c <= fst c1)%Z /\ (fst c1 <> fst c + delay)%Z
      end /\ spaced delay rest
  end.

End Calls.

(** A function that always throws, and state for it to leave alone. *)
Definition failing (args : list value) (w : unit) : outcome (value * unit) :=
  Throws TypeError.

(** A diamond: the object at 2 holds the object at 0 twice and the object
    at 1 once. *)
Definition h_diamond : heap :=
  [ literal [("n", num 1)]; literal [("n", num 1)];
    literal [("a", VRef 0); ("b", VRef 0); ("c", VRef 1); ("t", str "x")] ].

(** Two objects that each hold themselves. *)
Definition h_two_cycles : heap :=
  [ literal [("self", VRef 0)]; literal [("self", VRef 1)] ].


End Further.

(** * Properties *)

(** ** Property lists and heaps *)

Section PropertyLists.
Import Heap.

Lemma existsb_eqb_In (k : string) (ks : list string) :
  existsb (String.eqb k) ks = true <-> In k ks.
Proof.
  rewrite existsb_exists. split.
  - intros (x & Hx & Heq). apply String.eqb_eq in Heq. by subst.
  - intros Hin. exists k. split; [done | apply String.eqb_refl].
Qed.

Lemma distinct_NoDup (ks : list string) :
  distinct ks = true -> List.NoDup ks.
Proof.
  induction ks as [|k ks IH]; simpl; intros H; [constructor |].
  apply andb_prop in H as [Hk Hrest]. constructor; [| by apply IH].
  intros Hin. apply existsb_eqb_In in Hin. rewrite Hin in Hk. discriminate.
Qed.

Lemma get_prop_None (k : string) (ps : list (string * value)) :
  ~ In k (map fst ps) -> get_prop k ps = None.
Proof.
  induction ps as [|[k' v'] ps IH]; simpl; [done |].
  intros Hn. destruct (String.eqb_spec k k') as [->|Hne].
  - exfalso. apply Hn. by left.
  - apply IH. intros Hin. apply Hn. by right.
Qed.


Lemma get_prop_middle (k : string) (v : value) (before after : list (string * value)) :
  ~ In k (map fst before) ->
  get_prop k (before ++ (k, v) :: after) = Some v.
Proof.
  induction before as [|[k' v'] before IH]; simpl; intros Hn.
  - by rewrite String.eqb_refl.
  - destruct (String.eqb_spec k k') as [->|Hne].
    + exfalso. apply Hn. by left.
    + apply IH. intros Hin. apply Hn. by right.
Qed.

Lemma set_prop_fresh (k : string) (v : value) (ps : list (string * value)) :
  ~ In k (map fst ps) -> set_prop k v ps = ps ++ [(k, v)].
Proof.
  induction ps as [|[k' v'] ps IH]; simpl; intros Hn; [done |].
  destruct (String.eqb_spec k k') as [->|Hne].
  - exfalso. apply Hn. by left.
  - f_equal. apply IH. intros Hin. apply Hn. by right.
Qed.

Lemma NoDup_app_head (k : string) (before after : list string) :
  List.NoDup (before ++ k :: after) -> ~ In k before.
Proof.
  intros Hnd Hin. apply List.NoDup_remove_2 in Hnd. apply Hnd.
  apply in_or_app. by left.
Qed.

Lemma well_formed_lookup (h : heap) (l : nat) (o : obj) :
  well_formed h = true -> h !! l = Some o ->
  List.NoDup (keys o) /\
  forall k v, In (k, v) (oprops o) -> closed (length h) v = true.
Proof.
  unfold well_formed, unique_keys, no_dangling.
  intros Hwf Hl. apply andb_prop in Hwf as [Hu Hd].
  rewrite forallb_forall in Hu. rewrite forallb_forall in Hd.
  assert (Hin : In o h).
  { apply list_elem_of_In. eapply list_elem_of_lookup_2. exact Hl. }
  split.
  - apply distinct_NoDup. by apply Hu.
  - intros k v Hkv. specialize (Hd o Hin). rewrite forallb_forall in Hd.
    apply (Hd (k, v) Hkv).
Qed.

Lemma closed_lookup (h : heap) (l : nat) :
  closed (length h) (VRef l) = true -> exists o, h !! l = Some o.
Proof.
  simpl. intros H. apply Nat.ltb_lt in H.
  destruct (lookup_lt_is_Some_2 h l H) as [o Ho]. by exists o.
Qed.

Lemma forallb_lookup {A : Type} (f : A -> bool) (xs : list A) (i : nat) (x : A) :
  forallb f xs = true -> xs !! i = Some x -> f x = true.
Proof.
  intros Hall Hx. rewrite forallb_forall in Hall. apply Hall.
  apply list_elem_of_In. eapply list_elem_of_lookup_2. exact Hx.
Qed.


Lemma deref_Some (h : heap) (l : nat) (o : obj) :
  h !! l = Some o -> deref h l = Done o.
Proof. unfold deref. by intros ->. Qed.

(** On a tame object the call [obj.hasOwnProperty(key)] is the built-in
    one, and no own key is [__proto__]. *)
Lemma tame_hasOwnProperty (o : obj) (key : string) :
  tame o = true -> call_hasOwnProperty o key = Done (hasOwnProperty o key).
Proof.
  unfold tame, call_hasOwnProperty, invoke. intros H.
  apply andb_prop in H as [H _]. apply andb_prop in H as [H _].
  by destruct (resolve o "hasOwnProperty").
Qed.

Lemma get_prop_key (key : string) (v : value) (ps : list (string * value)) :
  get_prop key ps = Some v -> In key (map fst ps).
Proof.
  induction ps as [|[k w] ps IH]; simpl; [done |].
  destruct (String.eqb_spec key k) as [->|Hne]; [by left |].
  intros H. right. by apply IH.
Qed.

Lemma tame_not_inherited (o : obj) (key : string) (v : value) :
  tame o = true -> get_prop key (oprops o) = Some v -> inherits o key = false.
Proof.
  unfold tame. intros H Hget. apply andb_prop in H as [_ H].
  apply negb_true_iff in H.
  destruct (inherits o key) eqn:Hinh; [| done].
  assert (Hex : existsb (inherits o) (keys o) = true).
  { apply existsb_exists. exists key. split; [| done].
    by eapply get_prop_key. }
  congruence.
Qed.

Lemma tame_own_key (o : obj) (key : string) (v : value) :
  tame o = true -> get_prop key (oprops o) = Some v ->
  existsb (String.eqb key) (special_keys (okind o)) = false.
Proof.
  unfold tame. intros H Hget. apply andb_prop in H as [H _].
  apply andb_prop in H as [_ H]. apply negb_true_iff in H.
  destruct (existsb (String.eqb key) (special_keys (okind o))) eqn:Hex;
    [| done].
  apply existsb_eqb_In in Hex.
  assert (Hown : existsb (hasOwnProperty o) (special_keys (okind o)) = true).
  { apply existsb_exists. exists key. split; [done |].
    unfold hasOwnProperty. by rewrite Hget. }
  congruence.
Qed.

(** The assignment of an own key of a tame object to its clone defines an
    own property. *)
Lemma assign_put (key : string) (v : value) (c : nat) (o : obj) :
  existsb (String.eqb key) (special_keys (okind o)) = false ->
  inherits o key = false ->
  assign key v c o = Done (put key v o).
Proof.
  unfold assign. intros H Hinh. rewrite H, Hinh.
  assert (Hp : String.eqb key "__proto__" = false).
  { unfold special_keys in H. cbn [existsb] in H.
    by apply orb_false_elim in H as [-> _]. }
  rewrite Hp.
  destruct (is_regexp o && existsb (String.eqb key) regexp_reads) eqn:Hr;
    [| done].
  apply andb_prop in Hr as [Hk Hr]. unfold is_regexp in Hk.
  unfold special_keys in H. destruct (okind o); try done.
  cbn [existsb] in H. rewrite Hr in H.
  by rewrite !orb_true_r in H.
Qed.

End PropertyLists.

(** ** deepClone builds a copy of the reachable graph, on every heap of
       tame objects *)

Section CloneProofs.
Import Heap Clone CloneSpec.

Lemma image_mono (m m' : gmap nat nat) (v v' : value) :
  m ⊆ m' -> image m v v' -> image m' v v'.
Proof.
  intros Hsub. destruct v as [p|f|l]; simpl; try done.
  intros (c & Hc & ->). exists c. split; [| done].
  eapply lookup_weaken; eauto.
Qed.

Lemma copied_mono (m m' : gmap nat nat) (ps ps' : list (string * value)) :
  m ⊆ m' -> copied m ps ps' -> copied m' ps ps'.
Proof.
  intros Hsub H. eapply Forall2_impl; [exact H |].
  intros kv kv' [Hk Hv]. split; [done | by eapply image_mono].
Qed.

Lemma copied_keys (m : gmap nat nat) (ps ps' : list (string * value)) :
  copied m ps ps' -> map fst ps' = map fst ps.
Proof.
  induction 1 as [|kv kv' ps ps' [Hk _] _ IH]; simpl; [done |].
  by rewrite Hk, IH.
Qed.

Lemma copied_snoc (m : gmap nat nat) (ps ps' : list (string * value))
    (k : string) (v v' : value) :
  copied m ps ps' -> image m v v' ->
  copied m (ps ++ [(k, v)]) (ps' ++ [(k, v')]).
Proof.
  intros Hps Hv. apply Forall2_app; [done |].
  constructor; [by split | constructor].
Qed.

Lemma copied_get (m : gmap nat nat) (ps ps' : list (string * value))
    (k : string) :
  copied m ps ps' ->
  match get_prop k ps with
  | Some v => exists v', get_prop k ps' = Some v' /\ image m v v'
  | None => get_prop k ps' = None
  end.
Proof.
  induction 1 as [|[k1 v1] [k2 v2] ps ps' [Hk Hv] _ IH]; simpl; [done |].
  simpl in Hk, Hv. subst k2.
  destruct (String.eqb k k1); [by exists v2 | exact IH].
Qed.

Lemma finished_mono (h0 h h' : heap) (m m' : gmap nat nat) (l c : nat) :
  m ⊆ m' -> (forall oc, h !! c = Some oc -> h' !! c = Some oc) ->
  finished h0 h m l c -> finished h0 h' m' l c.
Proof.
  intros Hsub Hh (o & oc & Ho & Hoc & Hk & Hi & Hps).
  exists o, oc. repeat split; [done | by apply Hh | done | done |].
  by eapply copied_mono.
Qed.

Lemma hash_size (h0 : heap) (m : gmap nat nat) (l : nat) :
  hash_ok h0 m -> m !! l = None -> l < length h0 -> size m < length h0.
Proof.
  intros Hok Hnone Hl.
  assert (Hsub : dom (<[l := 0]> m) ⊆ (set_seq 0 (length h0) : gset nat)).
  { intros x Hx. apply elem_of_set_seq. split; [lia |]. simpl.
    apply elem_of_dom in Hx as [c Hc].
    destruct (decide (l = x)) as [->|Hne]; [done |].
    rewrite lookup_insert_ne in Hc by done. by eapply Hok. }
  apply subseteq_size in Hsub.
  rewrite size_dom, size_set_seq, map_size_insert_None in Hsub by done.
  lia.
Qed.

Lemma fresh_clone_kind (o : obj) : okind (fresh_clone o) = okind o.
Proof. destruct o as [[t| |s f|p c] ps inh]; reflexivity. Qed.

Lemma fresh_clone_props (o : obj) : oprops (fresh_clone o) = [].
Proof. destruct o as [[t| |s f|p c] ps inh]; reflexivity. Qed.

Lemma fresh_clone_inherited (o : obj) :
  oinherited (fresh_clone o) = oinherited o.
Proof. destruct o as [[t| |s f|p c] ps inh]; reflexivity. Qed.

(** One turn of the loop on a key that is not the object's own, and on
    one that is. *)
Lemma for_in_skip rec (l c : nat) (o : obj) (key : string)
    (ks : list string) (h : heap) (m : gmap nat nat) :
  h !! l = Some o -> tame o = true -> hasOwnProperty o key = false ->
  for_in rec l c (key :: ks) (h, m) = for_in rec l c ks (h, m).
Proof.
  intros Hl Ht Hkey. cbn [for_in fst].
  rewrite (deref_Some _ _ _ Hl). simpl.
  rewrite (tame_hasOwnProperty _ _ Ht), Hkey. reflexivity.
Qed.

Lemma for_in_own rec (l c : nat) (o oc : obj) (key : string) (v v' : value)
    (ks : list string) (h h1 : heap) (m m1 : gmap nat nat) :
  h !! l = Some o -> tame o = true -> get_prop key (oprops o) = Some v ->
  rec v (h, m) = Done (v', (h1, m1)) -> h1 !! c = Some oc ->
  okind oc = okind o -> oinherited oc = oinherited o ->
  for_in rec l c (key :: ks) (h, m)
  = for_in rec l c ks (<[c := put key v' oc]> h1, m1).
Proof.
  intros Hl Ht Hget Hrec Hc Hkind Hinh. cbn [for_in fst].
  rewrite (deref_Some _ _ _ Hl). simpl.
  rewrite (tame_hasOwnProperty _ _ Ht). unfold hasOwnProperty, get.
  rewrite Hget. simpl. rewrite Hrec. simpl.
  rewrite (deref_Some _ _ _ Hc). simpl.
  rewrite assign_put; [reflexivity | |].
  - rewrite Hkind. by eapply tame_own_key.
  - unfold inherits. rewrite Hinh. by eapply tame_not_inherited.
Qed.

(** The loop passes over the keys that are not the object's own. *)
Lemma for_in_inherited rec (l c : nat) (o : obj) (ks : list string)
    (h : heap) (m : gmap nat nat) :
  h !! l = Some o -> tame o = true ->
  Forall (fun key => hasOwnProperty o key = false) ks ->
  for_in rec l c ks (h, m) = Done (h, m).
Proof.
  intros Hl Ht. induction 1 as [|key ks Hkey _ IH]; [done |].
  by rewrite (for_in_skip rec l c o key ks h m Hl Ht Hkey).
Qed.

Lemma prefix_insert_beyond (h h2 : heap) (c : nat) (x : obj) :
  h `prefix_of` h2 -> length h <= c -> h `prefix_of` <[c := x]> h2.
Proof.
  intros [ext ->] Hc. rewrite insert_app_r_alt by done.
  by apply prefix_app_r.
Qed.

(** The [for ... in] loop, given that the recursive calls behave. *)
Lemma for_in_ok (h0 : heap) rec (n l : nat) (o : obj) (h : heap)
    (m : gmap nat nat) :
  well_formed h0 = true -> tame o = true -> clone_ok h0 rec n ->
  h0 !! l = Some o -> h0 `prefix_of` h -> m !! l = None ->
  length h0 - S (size m) < n ->
  forall inherited, Forall (fun key => hasOwnProperty o key = false) inherited ->
  forall todo before hi mi oci,
    oprops o = before ++ todo ->
    h `prefix_of` hi -> <[l := length h]> m ⊆ mi -> hash_ok h0 mi ->
    hi !! length h = Some oci -> okind oci = okind o ->
    oinherited oci = oinherited o ->
    copied mi before (oprops oci) ->
    (forall l' c', mi !! l' = Some c' -> <[l := length h]> m !! l' = None ->
       length h < c' /\ finished h0 hi mi l' c') ->
    exists h' m' oc,
      for_in rec l (length h) (map fst todo ++ inherited) (hi, mi)
        = Done (h', m') /\
      h `prefix_of` h' /\ <[l := length h]> m ⊆ m' /\ hash_ok h0 m' /\
      h' !! length h = Some oc /\ copy_of m' o oc /\
      (forall l' c', m' !! l' = Some c' -> <[l := length h]> m !! l' = None ->
         length h < c' /\ finished h0 h' m' l' c').
Proof.
  intros Hwf Htame Hrec Hl Hpre Hnone Hfuel inherited Hinh todo.
  destruct (well_formed_lookup h0 l o Hwf Hl) as [Hnd Hclosed].
  induction todo as [|[k vk] todo IH];
    intros before hi mi oci Hsplit Hhi Hmi Hok Hc Hkind Hinhc Hcop Hfin;
    (assert (Hlo : hi !! l = Some o);
     [eapply prefix_lookup_Some; [| exact Hhi];
      eapply prefix_lookup_Some; [exact Hl | exact Hpre] |]).
  - rewrite app_nil_r in Hsplit. subst before. simpl.
    rewrite (for_in_inherited rec l _ o inherited hi mi Hlo Htame Hinh).
    exists hi, mi, oci. by repeat (split; [done |]).
  - assert (Hfresh : ~ In k (map fst before)).
    { unfold keys in Hnd. rewrite Hsplit, map_app in Hnd. simpl in Hnd.
      by apply NoDup_app_head in Hnd. }
    assert (Hprop : get_prop k (oprops o) = Some vk)
      by (rewrite Hsplit; by apply get_prop_middle).
    assert (Hvk : closed (length h0) vk = true).
    { apply (Hclosed k vk). rewrite Hsplit. apply in_or_app. right. by left. }
    assert (Hsize : length h0 - size mi < n).
    { apply map_subseteq_size in Hmi.
      rewrite map_size_insert_None in Hmi by done. lia. }
    destruct (Hrec vk hi mi) as (v' & h2 & m2 & Hcall & Hpost);
      [by etrans | done | done | done |].
    destruct Hpost as [Hh2 Hm2 Hok2 Himg Hnew].
    assert (Hc2 : h2 !! length h = Some oci)
      by (eapply prefix_lookup_Some; eauto).
    cbn [map fst app].
    rewrite (for_in_own rec l (length h) o oci k vk v' _ hi h2 mi m2
               Hlo Htame Hprop Hcall Hc2 Hkind Hinhc).
    assert (Hlt : length h < length hi) by (eapply lookup_lt_Some; eauto).
    assert (Hkeep : forall c' x, c' <> length h -> hi !! c' = Some x ->
              <[length h := put k v' oci]> h2 !! c' = Some x).
    { intros c' x Hne Hx. rewrite list_lookup_insert_ne by done.
      eapply prefix_lookup_Some; eauto. }
    apply (IH (before ++ [(k, vk)]) _ m2 (put k v' oci)).
    + by rewrite <- app_assoc.
    + apply prefix_insert_beyond; [by etrans | done].
    + by etrans.
    + done.
    + apply list_lookup_insert_eq. eapply lookup_lt_Some; eauto.
    + done.
    + done.
    + simpl. rewrite set_prop_fresh.
      * apply copied_snoc; [by eapply copied_mono | done].
      * by rewrite (copied_keys _ _ _ Hcop).
    + intros l' c' Hl' Hnone'.
      destruct (mi !! l') as [c''|] eqn:Hmi'.
      * assert (c'' = c').
        { eapply lookup_weaken in Hmi'; [| exact Hm2]. congruence. }
        subst c''. destruct (Hfin l' c' Hmi' Hnone') as [Hlt' Hf].
        split; [done |]. eapply finished_mono; [exact Hm2 | | exact Hf].
        intros x Hx. apply Hkeep; [lia | done].
      * destruct (Hnew l' c' Hl' Hmi') as [Hge Hf]. split; [lia |].
        eapply (finished_mono h0 h2 _ m2 m2); [done | | exact Hf].
        intros x Hx. rewrite list_lookup_insert_ne by lia. done.
Qed.

Lemma inherited_not_own (o : obj) :
  Forall (fun key => hasOwnProperty o key = false)
    (List.filter (fun key => negb (hasOwnProperty o key))
       (inherited_enumerable (oinherited o))).
Proof.
  apply List.Forall_forall. intros key Hin. apply filter_In in Hin as [_ H].
  by apply negb_true_iff in H.
Qed.

(** Every call returns within a budget of one more than the number of
    objects not yet in the hash, and leaves a finished copy. *)
Lemma deepClone_ok (h0 : heap) :
  well_formed h0 = true -> ordinary h0 = true ->
  forall n, clone_ok h0 (deepClone n) n.
Proof.
  intros Hwf Hord n.
  induction n as [|n IH]; intros v h m Hpre Hok Hv Hfuel; [lia |].
  destruct v as [p|f|l].
  - exists (VPrim p), h, m. split; [done |].
    constructor; try done. intros l c Hc Hn. congruence.
  - exists (VFun f), h, m. split; [done |].
    constructor; try done. intros l c Hc Hn. congruence.
  - simpl. destruct (m !! l) as [c|] eqn:Hm.
    + exists (VRef c), h, m. split; [done |].
      constructor; try done; [by exists c | intros; congruence].
    + destruct (closed_lookup h0 l Hv) as [o Ho].
      assert (Hho : h !! l = Some o) by (eapply prefix_lookup_Some; eauto).
      rewrite (deref_Some _ _ _ Hho). simpl.
      assert (Hl : l < length h0) by (eapply lookup_lt_Some; eauto).
      pose proof (hash_size h0 m l Hok Hm Hl) as Hsz.
      pose proof (forallb_lookup _ _ _ _ Hord Ho) as Htame.
      destruct (for_in_ok h0 (deepClone n) n l o h m Hwf Htame IH Ho Hpre Hm
                  ltac:(lia)
                  (List.filter (fun key => negb (hasOwnProperty o key))
                     (inherited_enumerable (oinherited o)))
                  (inherited_not_own o)
                  (oprops o) [] (h ++ [fresh_clone o])
                  (<[l := length h]> m) (fresh_clone o))
        as (h' & m' & oc & Hloop & Hh' & Hm' & Hok' & Hc' & Hcopy & Hfin).
      * done.
      * by apply prefix_app_r.
      * done.
      * intros l' c'. destruct (decide (l = l')) as [<-|Hne].
        -- done.
        -- rewrite lookup_insert_ne by done. apply Hok.
      * by rewrite list_lookup_middle.
      * apply fresh_clone_kind.
      * apply fresh_clone_inherited.
      * rewrite fresh_clone_props. constructor.
      * intros l' c' Hl' Hn'. congruence.
      * unfold enumerate, keys. rewrite Hloop. simpl.
        exists (VRef (length h)), h', m'. split; [done |].
        assert (Hlc : m' !! l = Some (length h)).
        { eapply lookup_weaken; [| exact Hm']. apply lookup_insert_eq. }
        constructor.
        -- done.
        -- etrans; [| exact Hm']. by apply insert_subseteq.
        -- done.
        -- by exists (length h).
        -- intros l' c' Hl' Hn'. destruct (decide (l = l')) as [<-|Hne].
           ++ assert (c' = length h) by congruence. subst c'.
              split; [done |]. by exists o, oc.
           ++ destruct (Hfin l' c' Hl') as [Hlt Hf];
                [by rewrite lookup_insert_ne | split; [lia | done]].
Qed.

End CloneProofs.

Section CloneResults.
Import Heap Clone CloneSpec.

(** A top-level call returns on every heap of tame objects, cyclic or
    not, within a budget of one more than the number of objects, and every
    entry of the hash it leaves is finished. *)
Lemma deepClone_terminates (h : heap) (v : value) (fuel : nat) :
  well_formed h = true -> ordinary h = true ->
  closed (length h) v = true -> length h < fuel ->
  exists v' h' m',
    deepClone fuel v (h, ∅) = Done (v', (h', m')) /\
    h `prefix_of` h' /\ image m' v v' /\
    forall l c, m' !! l = Some c ->
      l < length h /\ length h <= c /\ finished h h' m' l c.
Proof.
  intros Hwf Hord Hv Hfuel.
  destruct (deepClone_ok h Hwf Hord fuel v h ∅)
    as (v' & h' & m' & Hcall & Hpost);
    [done | by intros l c | done | lia |].
  destruct Hpost as [Hh Hm Hok Himg Hnew].
  exists v', h', m'. repeat (split; [done |]).
  intros l c Hlc. destruct (Hnew l c Hlc) as [Hge Hf]; [done |].
  repeat split; [by eapply Hok | done | done].
Qed.

Lemma deepClone_top_eq (fuel : nat) (v v' : value) (h h' : heap)
    (m' : gmap nat nat) :
  deepClone fuel v (h, ∅) = Done (v', (h', m')) ->
  deepClone_top fuel v h = Done (v', h').
Proof. unfold deepClone_top. by intros ->. Qed.

Lemma deepClone_object (h : heap) (l : nat) (o : obj) (fuel : nat) :
  well_formed h = true -> ordinary h = true ->
  h !! l = Some o -> length h < fuel ->
  exists c h' m' oc,
    deepClone fuel (VRef l) (h, ∅) = Done (VRef c, (h', m')) /\
    h `prefix_of` h' /\ length h <= c /\ m' !! l = Some c /\
    h' !! c = Some oc /\ copy_of m' o oc /\
    forall l1 c1, m' !! l1 = Some c1 ->
      l1 < length h /\ length h <= c1 /\ finished h h' m' l1 c1.
Proof.
  intros Hwf Hord Ho Hfuel.
  assert (Hl : l < length h) by (eapply lookup_lt_Some; eauto).
  destruct (deepClone_terminates h (VRef l) fuel Hwf Hord)
    as (v' & h' & m' & Hcall & Hh & (c & Hc & ->) & Hall);
    [by apply Nat.ltb_lt | done |].
  destruct (Hall l c Hc) as (_ & Hge & o' & oc & Ho' & Hoc & Hcopy).
  assert (o' = o) by congruence. subst o'.
  by exists c, h', m', oc.
Qed.

(** A path of the original leads, in the copy, to the image of what it
    leads to in the original. *)
Lemma walk_prefix (h h' : heap) (path : list string) :
  h `prefix_of` h' ->
  forall v w, walk h v path = Some w -> walk h' v path = Some w.
Proof.
  intros Hpre. induction path as [|key path IH]; intros v w; [done |].
  cbn [walk]. destruct v as [p|f|l]; try done.
  destruct (h !! l) as [o|] eqn:Ho; [| done].
  rewrite (prefix_lookup_Some _ _ _ _ Ho Hpre). simpl.
  destruct (get_prop key (oprops o)) as [x|]; [| done]. simpl. apply IH.
Qed.

Lemma walk_copy (h h' : heap) (m : gmap nat nat) :
  (forall l c, m !! l = Some c ->
     l < length h /\ length h <= c /\ finished h h' m l c) ->
  forall path v v' w,
    walk h v path = Some w -> image m v v' ->
    exists w', walk h' v' path = Some w' /\ image m w w'.
Proof.
  intros Hall path. induction path as [|key path IH]; intros v v' w.
  - intros [= ->] Himg. by exists v'.
  - cbn [walk]. destruct v as [p|f|l]; try done.
    destruct (h !! l) as [o|] eqn:Ho; [| done]. simpl.
    destruct (get_prop key (oprops o)) as [x|] eqn:Hx; [| done]. simpl.
    intros Hwalk (c & Hc & ->).
    destruct (Hall l c Hc) as (_ & _ & o' & oc & Ho' & Hoc & _ & _ & Hps).
    assert (o' = o) by congruence. subst o'.
    pose proof (copied_get m _ _ key Hps) as Hget. rewrite Hx in Hget.
    destruct Hget as (x' & Hx' & Himg).
    rewrite Hoc. simpl. rewrite Hx'. simpl. by apply (IH x x' w).
Qed.

End CloneResults.

(** ** deepEqual on an object and its clone *)

Section EqualCopy.
Import Heap Clone CloneSpec Equal EqualSpec.










(** The two method calls of deepEqual, on objects that leave the methods
    alone, and conversely. *)
Lemma same_time_Done (oa ob : obj) (r : bool) :
  is_date oa && is_date ob = true ->
  same_time oa ob = Done r <->
  builtin_methods oa = true /\ builtin_methods ob = true /\
  r = number_eqb (getTime oa) (getTime ob).
Proof.
  unfold is_date, same_time, call_getTime, invoke, builtin_methods.
  destruct (okind oa), (okind ob); simpl; try done. intros _.
  destruct (resolve oa "getTime"), (resolve ob "getTime"); simpl;
    intuition congruence.
Qed.

Lemma same_string_Done (oa ob : obj) (r : bool) :
  is_regexp oa && is_regexp ob = true ->
  same_string oa ob = Done r <->
  builtin_methods oa = true /\ builtin_methods ob = true /\
  r = String.eqb (regexp_toString oa) (regexp_toString ob).
Proof.
  unfold is_regexp, same_string, call_toString, invoke, builtin_methods.
  generalize (regexp_toString oa), (regexp_toString ob).
  generalize (existsb (shadows oa) regexp_reads),
    (existsb (shadows ob) regexp_reads).
  intros ea eb sa sb.
  destruct (okind oa), (okind ob); simpl; try done. intros _.
  destruct (resolve oa "toString"), (resolve ob "toString"), ea, eb;
    simpl; intuition congruence.
Qed.


Lemma deepEqual_refs (n : nat) (h : heap) (la lb : nat) (oa ob : obj) :
  h !! la = Some oa -> h !! lb = Some ob -> Nat.eqb la lb = false ->
  deepEqual (S n) h (VRef la) (VRef lb) = compare_objects (deepEqual n h) oa ob.
Proof.
  intros Ha Hb Hne. simpl.
  by rewrite Hne, (deref_Some _ _ _ Ha), (deref_Some _ _ _ Hb).
Qed.


End EqualCopy.

(** ** deepEqual and the relation of the specification *)

Section EqualProofs.
Import Heap Equal EqualSpec.

Lemma deepEqual_unfold (n : nat) (h : heap) (a b : value) :
  deepEqual (S n) h a b =
  if strict_eq a b then Done true
  else match a, b with
       | VRef la, VRef lb =>
           oa ← deref h la; ob ← deref h lb;
           compare_objects (deepEqual n h) oa ob
       | _, _ => Done false
       end.
Proof.
  destruct a as [[| |x|x|x]|f|la], b as [[| |y|y|y]|g|lb]; simpl;
    try reflexivity; by repeat case_match.
Qed.

(** The same, once both objects are found. *)
Lemma deepEqual_objects (n : nat) (h : heap) (la lb : nat) (oa ob : obj) :
  h !! la = Some oa -> h !! lb = Some ob ->
  deepEqual (S n) h (VRef la) (VRef lb) =
  if Nat.eqb la lb then Done true else compare_objects (deepEqual n h) oa ob.
Proof.
  intros Ha Hb. rewrite deepEqual_unfold.
  by rewrite (deref_Some _ _ _ Ha), (deref_Some _ _ _ Hb).
Qed.

Lemma for_of_mono (rec rec' : value -> value -> answer bool) (oa ob : obj) :
  (forall a b r, rec a b = Done r -> rec' a b = Done r) ->
  forall ks r, for_of rec oa ob ks = Done r -> for_of rec' oa ob ks = Done r.
Proof.
  intros Hrec ks. induction ks as [|k ks IH]; intros r; simpl; [done |].
  destruct (negb (includes k (keys ob))); [done |].
  destruct (rec (get oa k) (get ob k)) as [x| | |] eqn:Hx; try done.
  rewrite (Hrec _ _ _ Hx). simpl. destruct x; simpl; [apply IH | done].
Qed.

Lemma compare_objects_mono (rec rec' : value -> value -> answer bool)
    (oa ob : obj) (r : bool) :
  (forall a b r, rec a b = Done r -> rec' a b = Done r) ->
  compare_objects rec oa ob = Done r -> compare_objects rec' oa ob = Done r.
Proof.
  intros Hrec. unfold compare_objects.
  repeat case_match; try done. by apply for_of_mono.
Qed.

(** A larger budget does not change an answer. *)
Lemma deepEqual_mono (h : heap) (n : nat) :
  forall a b r, deepEqual n h a b = Done r ->
  forall n', n <= n' -> deepEqual n' h a b = Done r.
Proof.
  induction n as [|n IH]; intros a b r H n' Hle; [done |].
  destruct n' as [|n']; [lia |].
  rewrite deepEqual_unfold in *.
  destruct (strict_eq a b); [done |].
  destruct a as [p|f|la]; try done. destruct b as [q|g|lb]; try done.
  unfold deref in *.
  destruct (h !! la) as [oa|]; [| done]. destruct (h !! lb) as [ob|]; [| done].
  simpl in *. eapply compare_objects_mono; [| exact H].
  intros x y r' Hr. apply (IH x y r' Hr). lia.
Qed.

Lemma for_of_true (rec : value -> value -> answer bool) (oa ob : obj)
    (ks : list string) :
  for_of rec oa ob ks = Done true <->
  forall k, In k ks ->
    In k (keys ob) /\ rec (get oa k) (get ob k) = Done true.
Proof.
  induction ks as [|k ks IH]; simpl; [by split |].
  destruct (includes k (keys ob)) eqn:Hinc; simpl.
  - apply existsb_eqb_In in Hinc.
    destruct (rec (get oa k) (get ob k)) as [[|]| | |] eqn:Hr; simpl.
    + rewrite IH. split.
      * intros H k' [<-|Hin]; [done | by apply H].
      * intros H k' Hin. apply H. by right.
    + split; [done |]. intros H. destruct (H k) as [_ Hk]; [by left |].
      congruence.
    + split; [done |]. intros H. destruct (H k) as [_ Hk]; [by left |].
      congruence.
    + split; [done |]. intros H. destruct (H k) as [_ Hk]; [by left |].
      congruence.
    + split; [done |]. intros H. destruct (H k) as [_ Hk]; [by left |].
      congruence.
  - split; [done |]. intros H. destruct (H k) as [Hk _]; [by left |].
    apply existsb_eqb_In in Hk. unfold includes in Hinc. congruence.
Qed.

Lemma unique_keys_lookup (h : heap) (l : nat) (o : obj) :
  unique_keys h = true -> h !! l = Some o -> List.NoDup (keys o).
Proof.
  unfold unique_keys. intros Hu Hl.
  apply distinct_NoDup. by apply (forallb_lookup _ _ _ _ Hu Hl).
Qed.

Lemma kinds_of_dates (oa ob : obj) :
  is_date oa && is_date ob = true ->
  number_eqb (getTime oa) (getTime ob) = true ->
  exists t, okind oa = KDate (Num t) /\ okind ob = KDate (Num t).
Proof.
  unfold is_date, getTime.
  destruct (okind oa) as [[|ta]| | |], (okind ob) as [[|tb]| | |]; simpl;
    try done.
  intros _ Heq. apply Z.eqb_eq in Heq. subst tb. by exists ta.
Qed.

(** What deepEqual answers [true] on is related by [Compared]. *)
Lemma deepEqual_sound (h : heap) :
  unique_keys h = true ->
  forall n a b, deepEqual n h a b = Done true -> Compared h a b.
Proof.
  intros Hu n. induction n as [|n IH]; intros a b H; [done |].
  rewrite deepEqual_unfold in H.
  destruct (strict_eq a b) eqn:Hid; [by apply Compared_identical |].
  destruct a as [p|f|la]; try done. destruct b as [q|g|lb]; try done.
  unfold deref in H.
  destruct (h !! la) as [oa|] eqn:Ha; [| done].
  destruct (h !! lb) as [ob|] eqn:Hb; [| done].
  simpl in H. unfold compare_objects in H.
  destruct (strict_eq (constructor oa) (constructor ob)) eqn:Hc; [| done].
  simpl in H.
  destruct (is_date oa && is_date ob) eqn:Hd.
  { apply same_time_Done in H as (Hba & Hbb & H); [| done].
    destruct (kinds_of_dates oa ob Hd (eq_sym H)) as (t & Hta & Htb).
    by eapply Compared_date. }
  assert (Hnd : ~ both_dates oa ob).
  { intros [H1 H2]. by rewrite H1, H2 in Hd. }
  destruct (is_regexp oa && is_regexp ob) eqn:Hr.
  { apply same_string_Done in H as (Hba & Hbb & H); [| done].
    symmetry in H. apply String.eqb_eq in H.
    apply andb_prop in Hr as [Hr1 Hr2]. by eapply Compared_regexp. }
  assert (Hnr : ~ both_regexps oa ob).
  { intros [H1 H2]. by rewrite H1, H2 in Hr. }
  destruct (Nat.eqb (length (keys oa)) (length (keys ob))) eqn:Hlen; [| done].
  simpl in H. apply Nat.eqb_eq in Hlen. rewrite for_of_true in H.
  eapply Compared_object; eauto.
  - split; [done |]. intros k. split; [intros Hk; by apply H |].
    apply (List.NoDup_length_incl (unique_keys_lookup h la oa Hu Ha)); [lia |].
    intros k' Hk'. by apply H.
  - intros k Hk. apply IH. by apply H.
Qed.

(** One budget that serves every key of a list. *)
Lemma common_budget (h : heap) (oa ob : obj) (ks : list string) :
  (forall k, In k ks ->
     exists n, deepEqual n h (get oa k) (get ob k) = Done true) ->
  exists n, forall k, In k ks ->
    deepEqual n h (get oa k) (get ob k) = Done true.
Proof.
  induction ks as [|k ks IH]; intros H; [by exists 0 |].
  destruct (H k) as [n1 Hn1]; [by left |].
  destruct IH as [n2 Hn2]; [intros k' Hk'; apply H; by right |].
  exists (n1 + n2). intros k' [<-|Hin].
  - eapply deepEqual_mono; [exact Hn1 | lia].
  - eapply deepEqual_mono; [by apply Hn2 | lia].
Qed.

(** What [Compared] relates, deepEqual answers [true] on, given budget. *)
Lemma deepEqual_complete (h : heap) (a b : value) :
  Compared h a b -> exists n, deepEqual n h a b = Done true.
Proof.
  induction 1 as [a b Hid
                 |la lb oa ob t Ha Hb Hc Hka Hkb Hba Hbb
                 |la lb oa ob Ha Hb Hc Hnd [Hr1 Hr2] Hs Hba Hbb
                 |la lb oa ob Ha Hb Hc Hnd Hnr [Hlen Hmem] Hkeys IH].
  - exists 1. rewrite deepEqual_unfold. by rewrite Hid.
  - exists 1. rewrite (deepEqual_objects _ _ _ _ _ _ Ha Hb).
    destruct (Nat.eqb la lb); [done |].
    unfold compare_objects. rewrite Hc. cbn [negb].
    assert (Hd : is_date oa && is_date ob = true)
      by (unfold is_date; by rewrite Hka, Hkb).
    rewrite Hd. apply same_time_Done; [done |]. repeat split; [done | done |].
    unfold getTime. rewrite Hka, Hkb. simpl. by rewrite Z.eqb_refl.
  - exists 1. rewrite (deepEqual_objects _ _ _ _ _ _ Ha Hb).
    destruct (Nat.eqb la lb); [done |].
    unfold compare_objects. rewrite Hc. cbn [negb].
    destruct (is_date oa && is_date ob) eqn:Hd.
    { exfalso. apply Hnd. by apply andb_prop in Hd. }
    rewrite Hr1, Hr2. cbn [andb].
    apply same_string_Done; [by rewrite Hr1, Hr2 |].
    repeat split; [done | done |]. by rewrite Hs, String.eqb_refl.
  - destruct (common_budget h oa ob (keys oa) IH) as [n Hn].
    exists (S n). rewrite (deepEqual_objects _ _ _ _ _ _ Ha Hb).
    destruct (Nat.eqb la lb); [done |].
    unfold compare_objects. rewrite Hc, Hlen, Nat.eqb_refl. simpl.
    destruct (is_date oa && is_date ob) eqn:Hd.
    { exfalso. apply Hnd. by apply andb_prop in Hd. }
    destruct (is_regexp oa && is_regexp ob) eqn:Hr.
    { exfalso. apply Hnr. by apply andb_prop in Hr. }
    apply for_of_true. intros k Hk. split; [by apply Hmem | by apply Hn].
Qed.

(** [Compared] is the relation of the specification on the heaps whose
    Dates and RegExps leave their methods alone, and implies it on every
    heap. *)
Lemma Compared_DeepEq (h : heap) (a b : value) :
  Compared h a b -> DeepEq h a b.
Proof.
  induction 1.
  - by apply DeepEq_identical.
  - by eapply DeepEq_date.
  - by eapply DeepEq_regexp.
  - by eapply DeepEq_object.
Qed.

Lemma DeepEq_Compared (h : heap) (a b : value) :
  unshadowed h = true -> DeepEq h a b -> Compared h a b.
Proof.
  intros Hun. induction 1 as [a b Hid
                 |la lb oa ob t Ha Hb Hc Hka Hkb
                 |la lb oa ob Ha Hb Hc Hnd Hr Hs
                 |la lb oa ob Ha Hb Hc Hnd Hnr Hk Hkeys IH].
  - by apply Compared_identical.
  - eapply Compared_date; eauto; by eapply forallb_lookup.
  - eapply Compared_regexp; eauto; by eapply forallb_lookup.
  - by eapply Compared_object.
Qed.

End EqualProofs.

(** ** flatten *)

Section FlattenProofs.
Import Flatten FlattenSpec.
Context {A : Type}.

Lemma elem_induction (P : elem A -> Prop) :
  (forall x, P (Atom x)) ->
  (forall items, Forall P items -> P (Arr items)) ->
  forall e, P e.
Proof.
  intros Hatom Harr. fix IH 1. intros [x|items]; [apply Hatom | apply Harr].
  induction items as [|e items IHitems]; constructor; [apply IH | exact IHitems].
Qed.

Lemma reduce_concat (items : list (elem A)) (flat : list (elem A)) :
  fold_left (fun flat toFlatten => flat ++ spread toFlatten) items flat =
  flat ++ concat (map spread items).
Proof.
  revert flat. induction items as [|e items IH]; intros flat; simpl.
  - by rewrite app_nil_r.
  - by rewrite IH, app_assoc.
Qed.

Lemma flatten_Arr (items : list (elem A)) :
  flatten (Arr items) = concat (map spread items).
Proof. exact (reduce_concat items []). Qed.

Lemma spread_leaves (e : elem A) : spread e = map Atom (leaves e).
Proof.
  induction e as [x|items IH] using elem_induction; [done |].
  change (spread (Arr items)) with (flatten (Arr items)).
  rewrite flatten_Arr. cbn [leaves]. rewrite concat_map, map_map.
  f_equal. induction IH as [|e items He _ IHitems]; simpl; [done |].
  by rewrite He, IHitems.
Qed.

End FlattenProofs.

(** ** curry *)

Section CurryProofs.
Import Curry.
Context {A R : Type}.
Variable fn_length : nat.
Variable fn : list A -> R.

Lemma curried_enough (args : list A) :
  fn_length <= length args -> curried fn_length fn args = Value (fn args).
Proof.
  intros H. unfold curried. apply Nat.leb_le in H. by rewrite H.
Qed.

Lemma curried_short (args : list A) :
  length args < fn_length -> curried fn_length fn args = Partial args.
Proof.
  intros H. unfold curried. apply Nat.leb_gt in H. by rewrite H.
Qed.

(** While the arguments gathered stay short of the arity, each call
    returns the closure holding all of them, in call order. *)
Lemma chain_short (calls : list (list A)) (args : list A) :
  length (args ++ concat calls) < fn_length ->
  chain fn_length fn (Partial args) calls =
  Some (Partial (args ++ concat calls)).
Proof.
  revert args. induction calls as [|more calls IH]; intros args Hlen; simpl.
  - by rewrite app_nil_r.
  - simpl in Hlen. rewrite app_assoc in Hlen. unfold call_partial.
    rewrite curried_short.
    + rewrite IH by done. by rewrite app_assoc.
    + rewrite !List.length_app in Hlen. rewrite List.length_app. lia.
Qed.

Lemma chain_app (r : result A R) (calls1 calls2 : list (list A)) :
  chain fn_length fn r (calls1 ++ calls2) =
  chain fn_length fn r calls1 ≫= fun r1 => chain fn_length fn r1 calls2.
Proof.
  revert r. induction calls1 as [|more calls1 IH]; intros r; simpl; [done |].
  destruct r as [x|args]; [done | apply IH].
Qed.

End CurryProofs.

(** ** memoize *)

Section MemoizeProofs.
Import Memoize.
Context {W : Type}.
Variable JSON_stringify : W -> list value -> outcome string.
Variable fn : list value -> W -> outcome (value * W).

Lemma memoized_miss (args : list value) (cache : gmap string value) (w w1 : W)
    (key : string) (r : value) :
  JSON_stringify w args = Returns key -> cache !! key = None ->
  fn args w = Returns (r, w1) ->
  memoized JSON_stringify fn args (cache, w) =
  Returns (r, (<[key := r]> cache, w1)).
Proof.
  intros Hkey Hnone Hfn. unfold memoized. simpl. rewrite Hkey.
  rewrite bool_decide_eq_false_2 by (rewrite Hnone; by intros [x Hx]).
  by rewrite Hfn, lookup_insert_eq.
Qed.

Lemma memoized_hit (args : list value) (cache : gmap string value) (w : W)
    (key : string) (r : value) :
  JSON_stringify w args = Returns key -> cache !! key = Some r ->
  memoized JSON_stringify fn args (cache, w) = Returns (r, (cache, w)).
Proof.
  intros Hkey Hsome. unfold memoized. simpl. rewrite Hkey.
  rewrite bool_decide_eq_true_2 by (by rewrite Hsome).
  by rewrite Hsome.
Qed.

(** A call never removes or overwrites an entry of the cache. *)
Lemma memoized_keeps (args : list value) (s s1 : gmap string value * W)
    (x : value) (key : string) (r : value) :
  memoized JSON_stringify fn args s = Returns (x, s1) ->
  s.1 !! key = Some r -> s1.1 !! key = Some r.
Proof.
  unfold memoized. destruct (JSON_stringify s.2 args) as [k|e]; [| done].
  case_bool_decide as Hhas.
  - intros [= _ <-]. done.
  - destruct (fn args s.2) as [[y w]|e]; [| done].
    intros [= _ <-] Hkey. simpl.
    rewrite lookup_insert_ne; [done |].
    intros ->. apply Hhas. by rewrite Hkey.
Qed.

Lemma later_keeps (s s2 : gmap string value * W) (key : string) (r : value) :
  later JSON_stringify fn s s2 -> s.1 !! key = Some r -> s2.1 !! key = Some r.
Proof.
  induction 1 as [s|s args x s1 s2 Hcall _ IH|cache w w1 s2 _ IH]; intros Hk.
  - done.
  - apply IH. by eapply memoized_keeps.
  - by apply IH.
Qed.

End MemoizeProofs.

(** ** debounce *)

Section DebounceProofs.
Import Debounce.
Context {A : Type}.

Lemma armed_single (delay t : Z) (a : A) (w : world A) :
  armed delay t a w -> single_pending w.
Proof. intros (_ & id & Hp & Hid). right. by exists (mkTimer id (t + delay)%Z a). Qed.

Lemma advance_idle (t : Z) (w : world A) :
  pending w = [] ->
  advance t w = mkWorld (Z.max (now w) t) (next_id w) [] (timeoutId w) (fired w).
Proof. intros Hp. unfold advance. rewrite Hp. simpl. by rewrite app_nil_r. Qed.

Lemma advance_early (t : Z) (w : world A) (tm : timer A) :
  pending w = [tm] -> (t < due tm)%Z ->
  advance t w = mkWorld (Z.max (now w) t) (next_id w) [tm] (timeoutId w) (fired w).
Proof.
  intros Hp Hlt. unfold advance. rewrite Hp. simpl.
  assert (Hleb : Z.leb (due tm) t = false) by (apply Z.leb_gt; lia).
  rewrite Hleb. simpl. by rewrite app_nil_r.
Qed.

Lemma advance_due (t : Z) (w : world A) (tm : timer A) :
  pending w = [tm] -> (due tm <= t)%Z ->
  advance t w = mkWorld (Z.max (now w) t) (next_id w) [] (timeoutId w)
                  (fired w ++ [(due tm, targs tm)]).
Proof.
  intros Hp Hle. unfold advance. rewrite Hp. simpl.
  assert (Hleb : Z.leb (due tm) t = true) by (apply Z.leb_le; lia).
  by rewrite Hleb.
Qed.

Lemma advance_single (t : Z) (w : world A) :
  single_pending w -> single_pending (advance t w).
Proof.
  intros [Hp | (tm & Hp & Hid)].
  - rewrite advance_idle by done. by left.
  - destruct (Z_lt_le_dec t (due tm)) as [Hlt | Hle].
    + rewrite (advance_early t w tm) by done. right. by exists tm.
    + rewrite (advance_due t w tm) by done. by left.
Qed.

Lemma now_advance (t : Z) (w : world A) : now (advance t w) = Z.max (now w) t.
Proof. reflexivity. Qed.

(** A call cancels the pending timer, if any, and files its own. *)
Lemma debounced_arms (delay : Z) (a : A) (w : world A) :
  (0 <= delay)%Z -> single_pending w ->
  armed delay (now w) a (debounced delay a w) /\
  fired (debounced delay a w) = fired w.
Proof.
  intros Hd Hs. unfold debounced, setTimeout, armed.
  assert (Hclear : pending (clearTimeout (timeoutId w) w) = []).
  { destruct Hs as [Hp | (tm & Hp & Hid)].
    - unfold clearTimeout. destruct (timeoutId w); simpl; by rewrite Hp.
    - rewrite Hid. simpl. rewrite Hp. simpl. by rewrite Nat.eqb_refl. }
  assert (Hnow : now (clearTimeout (timeoutId w) w) = now w)
    by (unfold clearTimeout; by destruct (timeoutId w)).
  assert (Hfired : fired (clearTimeout (timeoutId w) w) = fired w)
    by (unfold clearTimeout; by destruct (timeoutId w)).
  simpl. rewrite Hclear, Hnow, Hfired, Z.max_r by done.
  split; [| done]. split; [done |]. by eexists.
Qed.

Lemma call_arms (delay t : Z) (a : A) (w : world A) :
  (0 <= delay)%Z -> single_pending w -> (now w <= t)%Z ->
  armed delay t a (debounced delay a (advance t w)) /\
  fired (debounced delay a (advance t w)) = fired (advance t w).
Proof.
  intros Hd Hs Ht.
  destruct (debounced_arms delay a (advance t w) Hd (advance_single t w Hs))
    as [Harm Hf].
  rewrite now_advance, Z.max_r in Harm by done. by split.
Qed.

(** A call made before the pending timer is due: nothing has run. *)
Lemma advance_armed_early (delay t t' : Z) (a : A) (w : world A) :
  armed delay t a w -> (t <= t' < t + delay)%Z ->
  fired (advance t' w) = fired w /\ (now w <= t')%Z.
Proof.
  intros (Hnow & id & Hp & Hid) Ht.
  rewrite (advance_early t' w _ Hp) by (simpl; lia). simpl. split; [done | lia].
Qed.

Lemma last_cons (c d : Z * A) (rest : list (Z * A)) :
  List.last (c :: rest) d = List.last rest c.
Proof.
  revert c d. induction rest as [|x rest IH]; intros c d; [done |].
  change (List.last (c :: x :: rest) d) with (List.last (x :: rest) d).
  by rewrite (IH x d), (IH x c).
Qed.

(** Through a burst, nothing runs, and the pending timer is always the
    last call's. *)
Lemma run_burst (delay : Z) (rest : list (Z * A)) :
  (0 <= delay)%Z ->
  forall t a w, armed delay t a w -> burst delay t rest ->
  armed delay (fst (List.last rest (t, a))) (snd (List.last rest (t, a)))
        (run delay rest w) /\
  fired (run delay rest w) = fired w.
Proof.
  intros Hd. induction rest as [|[t' a'] rest IH]; intros t a w Harm Hb.
  - by split.
  - destruct Hb as [Ht Hb]. simpl in Ht.
    destruct (advance_armed_early delay t t' a w Harm Ht) as [Hf Hnow].
    destruct (call_arms delay t' a' w Hd (armed_single _ _ _ _ Harm) Hnow)
      as [Harm' Hf'].
    destruct (IH t' a' _ Harm' Hb) as [Hlast Hfl].
    rewrite last_cons. change (run delay ((t', a') :: rest) w)
      with (run delay rest (debounced delay a' (advance t' w))).
    split; [done |]. by rewrite Hfl, Hf', Hf.
Qed.

(** Once the delay has passed, the pending call runs, and nothing is left
    to run. *)
Lemma advance_armed_due (delay t T : Z) (a : A) (w : world A) :
  armed delay t a w -> (t + delay <= T)%Z ->
  fired (advance T w) = fired w ++ [((t + delay)%Z, a)] /\
  pending (advance T w) = [].
Proof.
  intros (Hnow & id & Hp & Hid) HT.
  by rewrite (advance_due T w _ Hp) by done.
Qed.

End DebounceProofs.

(** ** toCamelCase and parseQuery *)

Section StringProofs.
Import Str CamelCase Query.

Lemma replace_runs_length (in_run : bool) (s : string) :
  String.length (replace_runs in_run s) <= String.length s.
Proof.
  revert in_run. induction s as [|c s IH]; intros in_run; simpl; [done |].
  destruct (is_delim c).
  - specialize (IH true). lia.
  - destruct (in_run && negb (is_line_terminator c)); simpl;
      specialize (IH false); lia.
Qed.

Lemma lower_first_length (s : string) :
  String.length (lower_first s) = String.length s.
Proof.
  destruct s as [|c s]; simpl; [done |].
  by destruct (is_line_terminator c).
Qed.

Lemma toCamelCase_length (s : string) :
  String.length (toCamelCase s) <= String.length s.
Proof.
  unfold toCamelCase. rewrite lower_first_length. apply replace_runs_length.
Qed.

Lemma unescape_error (s : string) (e : error) :
  unescape s = Throws e -> e = URIError.
Proof.
  revert e. induction s as [s IH] using
    (well_founded_induction (well_founded_ltof _ String.length)).
  intros e. destruct s as [|c rest]; simpl; [done |].
  destruct (N.eqb (code c) 37).
  - destruct rest as [|h1 [|h2 rest2]]; try (by intros [= <-]).
    destruct (hex_digit h1), (hex_digit h2); try (by intros [= <-]).
    destruct (unescape rest2) eqn:Hr; [done |].
    intros [= <-]. apply (IH rest2); [| done]. unfold ltof. simpl. lia.
  - destruct (unescape rest) eqn:Hr; [done |].
    intros [= <-]. apply (IH rest); [| done]. unfold ltof. simpl. lia.
Qed.

Lemma utf8_error (items : list item) (e : error) :
  utf8 items = Throws e -> e = URIError.
Proof.
  revert e. induction items as [items IH] using
    (well_founded_induction (well_founded_ltof _ (@length item))).
  intros e. destruct items as [|[c|b] rest]; cbn [utf8]; [done | |];
    repeat case_match; subst; try done; intros [= <-]; try done;
    (eapply IH; [| eassumption]); unfold ltof; simpl; lia.
Qed.

Lemma decodeURIComponent_error (s : string) (e : error) :
  decodeURIComponent s = Throws e -> e = URIError.
Proof.
  unfold decodeURIComponent. destruct (unescape s) eqn:Hu.
  - apply utf8_error.
  - intros [= <-]. by eapply unescape_error.
Qed.

Lemma decodable_false (s : string) :
  decodable s = false <-> decodeURIComponent s = Throws URIError.
Proof.
  unfold decodable. destruct (decodeURIComponent s) eqn:Hd.
  - by split.
  - rewrite (decodeURIComponent_error s e Hd). by split.
Qed.

(** One pair: the callback returns unless one of the strings it decodes
    is malformed, and then it throws [URIError]. *)
Lemma each_pair_outcome (params : list (string * string)) (p : string) :
  if forallb decodable (decoded_of_pair p)
  then exists params1, each_pair params p = Returns params1
  else each_pair params p = Throws URIError.
Proof.
  unfold each_pair, decoded_of_pair.
  generalize (nth_error (split "="%char p) 1%nat) as value.
  generalize (hd EmptyString (split "="%char p)) as key. intros key value.
  destruct (truthy key); [| by eexists].
  cbn [forallb]. unfold decodable at 1.
  destruct (decodeURIComponent key) as [k|e] eqn:Hk; cbn [andb].
  - destruct value as [v|]; [| by eexists].
    destruct (truthy v); [| by eexists].
    cbn [forallb]. unfold decodable.
    destruct (decodeURIComponent v) as [dv|e] eqn:Hv; cbn [andb].
    + by eexists.
    + by rewrite (decodeURIComponent_error v e Hv).
  - by rewrite (decodeURIComponent_error _ e Hk).
Qed.

Lemma forEach_outcome (pairs : list string) (params : list (string * string)) :
  if forallb decodable (concat (map decoded_of_pair pairs))
  then exists params1, forEach pairs params = Returns params1
  else forEach pairs params = Throws URIError.
Proof.
  revert params. induction pairs as [|p pairs IH]; intros params; simpl.
  - by eexists.
  - rewrite forallb_app. pose proof (each_pair_outcome params p) as Hp.
    destruct (forallb decodable (decoded_of_pair p)); simpl.
    + destruct Hp as [params1 ->]. apply IH.
    + by rewrite Hp.
Qed.

Lemma parseQuery_outcome (queryString : string) :
  if forallb decodable (decoded_parts queryString)
  then exists params, parseQuery queryString = Returns params
  else parseQuery queryString = Throws URIError.
Proof. apply forEach_outcome. Qed.

End StringProofs.

Section PercentFree.
Import Str Query.

Lemma unescape_percent_free (s : string) :
  percent_free s = true ->
  unescape s = Returns (map Raw (list_ascii_of_string s)).
Proof.
  induction s as [|c s IH]; simpl; [done |].
  intros H. apply andb_prop in H as [Hc Hs].
  destruct (N.eqb (code c) 37); [done |]. by rewrite IH.
Qed.

Lemma utf8_raw (cs : list ascii) :
  utf8 (map Raw cs) = Returns (string_of_list_ascii cs).
Proof. induction cs as [|c cs IH]; simpl; [done | by rewrite IH]. Qed.

Lemma decode_percent_free (s : string) :
  percent_free s = true -> decodeURIComponent s = Returns s.
Proof.
  intros H. unfold decodeURIComponent.
  by rewrite unescape_percent_free, utf8_raw, string_of_list_ascii_of_string.
Qed.

Lemma split_percent_free (sep : ascii) (s : string) :
  percent_free s = true ->
  forall x, In x (split sep s) -> percent_free x = true.
Proof.
  induction s as [|c s IH]; simpl.
  - intros _ x [<-|[]]. done.
  - intros H. apply andb_prop in H as [Hc Hs]. specialize (IH Hs).
    destruct (Ascii.eqb c sep).
    + intros x [<-|Hin]; [done | by apply IH].
    + destruct (split sep s) as [|y ys] eqn:Hsplit.
      * intros x [<-|[]]. simpl. by rewrite Hc.
      * intros x [<-|Hin].
        -- simpl. rewrite Hc. apply IH. by left.
        -- apply IH. by right.
Qed.

Lemma split_not_nil (sep : ascii) (s : string) : split sep s <> [].
Proof.
  destruct s as [|c s]; simpl; [done |].
  destruct (Ascii.eqb c sep); [done |]. by destruct (split sep s).
Qed.

Lemma decoded_of_pair_incl (p x : string) :
  In x (decoded_of_pair p) -> In x (split "="%char p).
Proof.
  unfold decoded_of_pair.
  pose proof (split_not_nil "="%char p) as Hne.
  destruct (split "="%char p) as [|key [|v rest]]; [done | |]; simpl.
  - destruct (truthy key); [| done]. intros [<-|[]]. by left.
  - destruct (truthy key); [| done]. intros [<-|Hin]; [by left |].
    destruct (truthy v); [| done]. destruct Hin as [<-|[]]. right. by left.
Qed.

Lemma decoded_parts_percent_free (s : string) :
  percent_free s = true -> forallb decodable (decoded_parts s) = true.
Proof.
  intros H. apply forallb_forall. intros x Hx. unfold decoded_parts in Hx.
  apply in_concat in Hx as (xs & Hxs & Hx).
  apply in_map_iff in Hxs as (p & <- & Hp).
  apply decoded_of_pair_incl in Hx.
  assert (Hq : percent_free (query_of s) = true).
  { unfold query_of. destruct s as [|c s]; [done |]. simpl.
    destruct (Ascii.eqb c "?"); [| done].
    simpl in H. by apply andb_prop in H as [_ Hs]. }
  unfold decodable. rewrite decode_percent_free; [done |].
  eapply split_percent_free; [| exact Hx].
  eapply split_percent_free; [exact Hq | exact Hp].
Qed.

Lemma lacks_app (c : ascii) (a b : string) :
  lacks c (a ++ b) = lacks c a && lacks c b.
Proof.
  induction a as [|d a IH]; simpl; [done |]. by rewrite IH, andb_assoc.
Qed.

Lemma split_lacks (sep : ascii) (s : string) :
  lacks sep s = true -> split sep s = [s].
Proof.
  induction s as [|c s IH]; simpl; [done |].
  intros H. apply andb_prop in H as [Hc Hs].
  apply negb_true_iff in Hc. by rewrite Hc, IH.
Qed.

Lemma split_app_sep (sep : ascii) (a b : string) :
  lacks sep a = true -> split sep (a ++ String sep b) = a :: split sep b.
Proof.
  induction a as [|c a IH]; simpl.
  - intros _. by rewrite Ascii.eqb_refl.
  - intros H. apply andb_prop in H as [Hc Ha].
    apply negb_true_iff in Hc. by rewrite Hc, IH.
Qed.

Lemma lacks_percent_free (s : string) :
  lacks "%"%char s = true -> percent_free s = true.
Proof.
  induction s as [|c s IH]; simpl; [done |].
  intros H. apply andb_prop in H as [Hc Hs]. rewrite IH by done.
  rewrite andb_true_r. apply negb_true_iff in Hc. apply negb_true_iff.
  apply N.eqb_neq. intros Heq. apply Ascii.eqb_neq in Hc. apply Hc.
  unfold code in Heq. rewrite <- (ascii_N_embedding c), Heq. reflexivity.
Qed.

(** On a pair with two [=], the value is what stands between them. *)
Lemma parseQuery_keeps_second_piece (k v1 v2 : string) :
  k <> EmptyString -> k <> "__proto__" ->
  unreserved k = true -> unreserved v1 = true -> unreserved v2 = true ->
  parseQuery (k ++ String "="%char (v1 ++ String "="%char v2))
  = Returns [(k, v1)].
Proof.
  unfold unreserved. intros Hk Hproto Hck Hc1 Hc2.
  repeat match goal with
         | H : _ && _ = true |- _ => apply andb_prop in H as [? ?]
         end.
  unfold parseQuery.
  assert (Hq : startsWith "?"%char
                 (k ++ String "="%char (v1 ++ String "="%char v2)) = false).
  { destruct k as [|c k]; [done |]. simpl in *.
    match goal with
    | H : negb (Ascii.eqb c "?") && _ = true |- _ =>
        apply andb_prop in H as [Hc _]; by apply negb_true_iff in Hc
    end. }
  rewrite Hq, split_lacks.
  2:{ rewrite lacks_app. simpl. rewrite lacks_app. simpl.
      repeat (apply andb_true_intro; split); done. }
  cbn [forEach]. unfold each_pair.
  rewrite split_app_sep, split_app_sep, split_lacks by done.
  cbn [hd nth_error].
  assert (Htk : truthy k = true) by (by destruct k).
  rewrite Htk, (decode_percent_free k) by (by apply lacks_percent_free).
  assert (Hassign : forall v, assign k v [] = [(k, v)]).
  { intros v. unfold assign.
    destruct (String.eqb_spec k "__proto__"); [done | done]. }
  destruct v1 as [|c v1]; [by rewrite Hassign |].
  cbn [truthy].
  rewrite (decode_percent_free (String c v1)) by (by apply lacks_percent_free).
  by rewrite Hassign.
Qed.

End PercentFree.

(** * The claims *)

Section Claims.
Import Heap Clone CloneSpec Equal EqualSpec Flatten FlattenSpec.
Import Str CamelCase Query Samples.

(** C1 (the code departs from it): the claim has parseQuery split a pair
    on its first [=] only, so that [k=v1=v2] gives [k] the value [v1=v2].
    The code splits on every [=] and keeps the first two pieces: on
    [k=v1=v2] it returns [{k: "v1"}], although [v1=v2] decodes to
    itself. *)
Theorem parseQuery_value_cut_at_second_equals :
  parseQuery "k=v1=v2" = Returns [("k", "v1")] /\
  split "="%char "k=v1=v2" = ["k"; "v1"; "v2"] /\
  decodeURIComponent "v1=v2" = Returns "v1=v2".
Proof. repeat split; reflexivity. Qed.

(** C2, as stated, fails: on the query [a=%] parseQuery throws the
    [URIError] of [decodeURIComponent] and returns nothing. *)
Lemma parseQuery_malformed_escape_throws :
  parseQuery "a=%" = Throws URIError /\
  ~ exists params, parseQuery "a=%" = Returns params.
Proof.
  split; [reflexivity |]. intros [params H]. vm_compute in H. discriminate.
Qed.

(** C2 (amended): toCamelCase has no failing path, and on ASCII text,
    where the case mappings and the whitespace class of the model are
    those of the language, the string it returns is no longer than its
    input.  parseQuery returns a mapping exactly when every key and every
    non-empty value it hands to [decodeURIComponent] is a well-formed
    percent-encoding, and throws [URIError] otherwise; in particular it
    returns on every string without a [%]. *)
Theorem parseQuery_toCamelCase_outcome (s : string) :
  (Further.ascii_only s = true ->
   String.length (toCamelCase s) <= String.length s) /\
  (if forallb decodable (decoded_parts s)
   then exists params, parseQuery s = Returns params
   else parseQuery s = Throws URIError) /\
  (percent_free s = true -> exists params, parseQuery s = Returns params).
Proof.
  split; [| split].
  - intros _. apply toCamelCase_length.
  - apply parseQuery_outcome.
  - intros H. pose proof (parseQuery_outcome s) as Hout.
    by rewrite (decoded_parts_percent_free s H) in Hout.
Qed.

Lemma parseQuery_toCamelCase_outcome_witness :
  Further.ascii_only "a&b=" = true /\ percent_free "a&b=" = true /\
  String.length (toCamelCase "a&b=") <= String.length "a&b=" /\
  exists params, parseQuery "a&b=" = Returns params.
Proof.
  split; [reflexivity |]. split; [reflexivity |]. split.
  - apply (proj1 (parseQuery_toCamelCase_outcome "a&b=")). reflexivity.
  - apply (proj2 (proj2 (parseQuery_toCamelCase_outcome "a&b="))). reflexivity.
Defined.






(** C5, as stated, fails: a Date with an own property [getTime: 1] and a
    Date of the same instant are two objects of the same constructor and
    the same instant, which the claim has equal, and deepEqual throws a
    TypeError on them, the call [a.getTime()] reaching the own property. *)
Lemma deepEqual_shadowed_method_throws :
  DeepEq h_date_method (VRef 0) (VRef 1) /\
  (forall n, deepEqual (S n) h_date_method (VRef 0) (VRef 1) = Fails TypeError) /\
  ~ exists n, deepEqual n h_date_method (VRef 0) (VRef 1) = Done true.
Proof.
  split; [| split].
  - by eapply (DeepEq_date h_date_method 0 1 _ _ 5).
  - reflexivity.
  - intros [[|n] H]; discriminate.
Qed.

(** C5 (amended): where every Date leaves [getTime], and every RegExp
    [toString] and the properties it reads, to the built-in ones,
    deepEqual(a, b) returns true if and only if [a === b], or [a] and [b]
    are objects with the same constructor that are two Dates of the same
    instant, or two RegExps of the same canonical string, or otherwise have
    key sets of equal cardinality and identical membership and recursively
    equal values under every key; when it returns false they are not so
    related.  On every heap the same holds of the relation that asks, of
    two Dates or two RegExps, that they leave those methods alone.  On the
    three sample comparisons deepEqual answers true, false and true. *)
Theorem deepEqual_characterised :
  (forall h a b, unique_keys h = true ->
     (unshadowed h = true ->
      ((exists n, deepEqual n h a b = Done true) <-> DeepEq h a b) /\
      (forall n, deepEqual n h a b = Done false -> ~ DeepEq h a b)) /\
     ((exists n, deepEqual n h a b = Done true) <-> Compared h a b) /\
     (forall n, deepEqual n h a b = Done false -> ~ Compared h a b)) /\
  (forall n, deepEqual (3 + n) h_equal (VRef 1) (VRef 3) = Done true) /\
  (forall n, deepEqual (3 + n) h_equal (VRef 1) (VRef 5) = Done false) /\
  (forall n, deepEqual (3 + n) h_equal (VRef 6) (VRef 7) = Done true).
Proof.
  split.
  - intros h a b Hu.
    assert (Htrue : (exists n, deepEqual n h a b = Done true) <-> Compared h a b).
    { split; [intros [n Hn]; by eapply deepEqual_sound
             | apply deepEqual_complete]. }
    assert (Hfalse : forall n, deepEqual n h a b = Done false ->
                               ~ Compared h a b).
    { intros n Hfalse HD. destruct (deepEqual_complete h a b HD) as [n' Hn'].
      pose proof (deepEqual_mono h n a b false Hfalse (n + n')) as H1.
      pose proof (deepEqual_mono h n' a b true Hn' (n + n')) as H2.
      rewrite H1 in H2 by lia. by specialize (H2 ltac:(lia)). }
    split; [| by split].
    intros Hun. split.
    + rewrite Htrue. split; [apply Compared_DeepEq | by apply DeepEq_Compared].
    + intros n Hn HD. apply (Hfalse n Hn). by apply DeepEq_Compared.
  - repeat split; intros n;
      (eapply (deepEqual_mono _ 3); [reflexivity | lia]).
Qed.

Lemma deepEqual_characterised_witness :
  unique_keys h_equal = true /\ unshadowed h_equal = true /\
  DeepEq h_equal (VRef 1) (VRef 3).
Proof.
  split; [reflexivity |]. split; [reflexivity |].
  apply (proj1 (proj1 (proj1 (proj1 deepEqual_characterised h_equal (VRef 1)
                                (VRef 3) eq_refl) eq_refl))).
  exists 3. reflexivity.
Defined.

(** C6: the first call of the memoized function with an argument list
    whose key is not in the cache calls [fn] and stores its result; every
    later call whose argument list serializes to the same key returns that
    result and leaves everything as it is, [fn] not being called; called
    twice in a row with the same arguments, as with [(2, 3)], it calls [fn]
    exactly once and returns the same result both times. *)
Theorem memoize_computes_once (W : Type)
    (JSON_stringify : W -> list value -> outcome string)
    (fn : list value -> W -> outcome (value * W))
    (args : list value) (cache : gmap string value) (w w1 : W)
    (key : string) (r : value) :
  JSON_stringify w args = Returns key -> cache !! key = None ->
  fn args w = Returns (r, w1) ->
  Memoize.memoized JSON_stringify fn args (cache, w) =
    Returns (r, (<[key := r]> cache, w1)) /\
  (forall s2 args2,
     Memoize.later JSON_stringify fn (<[key := r]> cache, w1) s2 ->
     JSON_stringify s2.2 args2 = Returns key ->
     Memoize.memoized JSON_stringify fn args2 s2 = Returns (r, s2)) /\
  (JSON_stringify w1 args = Returns key ->
   forall n, exists s1,
     Memoize.memoized (fun s => JSON_stringify s.1) (Memoize.counting fn)
       args (cache, (w, n)) = Returns (r, s1) /\
     Memoize.memoized (fun s => JSON_stringify s.1) (Memoize.counting fn)
       args s1 = Returns (r, s1) /\
     s1.2.2 = S n).
Proof.
  intros Hkey Hnone Hfn. split; [| split].
  - by apply memoized_miss.
  - intros [cache2 w2] args2 Hlater Hkey2.
    apply (memoized_hit _ _ _ _ _ key); [done |].
    apply (later_keeps _ _ _ _ key r Hlater). apply lookup_insert_eq.
  - intros Hkey1 n. exists (<[key := r]> cache, (w1, S n)).
    split; [| split; [| done]].
    + apply (memoized_miss _ _ _ _ _ _ key); [done | done |].
      unfold Memoize.counting. simpl. by rewrite Hfn.
    + apply (memoized_hit _ _ _ _ _ key); [done | apply lookup_insert_eq].
Qed.

Lemma memoize_computes_once_witness :
  exists s1,
    fst (Memoize.memoize (fun s => stringify_2_3 s.1) (Memoize.counting add2))
      [num 2; num 3]
      (snd (Memoize.memoize (fun s => stringify_2_3 s.1)
              (Memoize.counting add2)), (tt, 0))
    = Returns (num 5, s1) /\
    Memoize.memoized (fun s => stringify_2_3 s.1) (Memoize.counting add2)
      [num 2; num 3] s1 = Returns (num 5, s1) /\
    s1.2.2 = 1.
Proof.
  apply (proj2 (proj2 (memoize_computes_once unit stringify_2_3 add2
           [num 2; num 3] ∅ tt tt "[2,3]" (num 5)
           eq_refl (lookup_empty _) eq_refl)) eq_refl 0).
Defined.

(** C7: for [f = curry(fn)], a chain of calls whose arguments together
    stay short of [fn.length] returns a closure holding all of them in call
    order, and the call that brings their number to [fn.length] or more
    returns [fn] of all the arguments in call order; for
    [(a, b, c) => a + b + c], [f(1)(2)(3)] and [f(1, 2)(3)] are 6. *)
Theorem curry_accumulates :
  (forall (A R : Type) (fn_length : nat) (fn : list A -> R)
          (calls : list (list A)) (last : list A),
     length (concat calls) < fn_length ->
     fn_length <= length (concat calls ++ last) ->
     Curry.chain fn_length fn Curry.curry calls =
       Some (Curry.Partial (concat calls)) /\
     Curry.chain fn_length fn Curry.curry (calls ++ [last]) =
       Some (Curry.Value (fn (concat calls ++ last)))) /\
  Curry.chain 3 Curry.add3 Curry.curry [[Num 1]; [Num 2]; [Num 3]] =
    Some (Curry.Value (Num 6)) /\
  Curry.chain 3 Curry.add3 Curry.curry [[Num 1; Num 2]; [Num 3]] =
    Some (Curry.Value (Num 6)).
Proof.
  split; [| by split].
  intros A R fn_length fn calls last Hshort Henough.
  assert (Hchain : Curry.chain fn_length fn Curry.curry calls =
                   Some (Curry.Partial (concat calls))).
  { unfold Curry.curry. by rewrite chain_short. }
  split; [done |].
  rewrite chain_app, Hchain. simpl. unfold Curry.call_partial.
  by rewrite curried_enough.
Qed.

Lemma curry_accumulates_witness :
  Curry.chain 3 Curry.add3 Curry.curry [[Num 1]; [Num 2]] =
    Some (Curry.Partial [Num 1; Num 2]) /\
  Curry.chain 3 Curry.add3 Curry.curry ([[Num 1]; [Num 2]] ++ [[Num 3]]) =
    Some (Curry.Value (Curry.add3 ([Num 1; Num 2] ++ [Num 3]))).
Proof.
  apply (proj1 curry_accumulates number number 3 Curry.add3
           [[Num 1]; [Num 2]] [Num 3]); simpl; lia.
Defined.

(** C8: calls of the debounced function that each come less than [delay]
    after the one before run [func] not at all while they last, each call
    leaving its own timer as the only pending one; once [delay] has passed
    after the last call, [func] has run exactly once more, at [delay] after
    that call and with its arguments, and nothing is left pending. *)
Theorem debounce_burst_fires_once (A : Type) (delay t1 T : Z) (a1 : A)
    (rest : list (Z * A)) (w : Debounce.world A) :
  (0 <= delay)%Z -> Debounce.single_pending w -> (Debounce.now w <= t1)%Z ->
  Debounce.burst delay t1 rest ->
  (fst (List.last rest (t1, a1)) + delay <= T)%Z ->
  let c := List.last rest (t1, a1) in
  let w1 := Debounce.run delay ((t1, a1) :: rest) w in
  Debounce.fired w1 = Debounce.fired (Debounce.advance t1 w) /\
  (exists id, Debounce.pending w1 =
                [Debounce.mkTimer id (fst c + delay)%Z (snd c)]) /\
  Debounce.fired (Debounce.advance T w1) =
    Debounce.fired (Debounce.advance t1 w) ++ [((fst c + delay)%Z, snd c)] /\
  Debounce.pending (Debounce.advance T w1) = [].
Proof.
  intros Hd Hs Hnow Hb HT c w1.
  destruct (call_arms delay t1 a1 w Hd Hs Hnow) as [Harm Hf].
  destruct (run_burst delay rest Hd t1 a1 _ Harm Hb) as [Hlast Hfl].
  change (Debounce.run delay rest
            (Debounce.debounced delay a1 (Debounce.advance t1 w))) with w1
    in Hlast, Hfl.
  fold c in Hlast.
  destruct (advance_armed_due delay (fst c) T (snd c) w1 Hlast HT) as [HfT HpT].
  split; [by rewrite Hfl, Hf |].
  split; [destruct Hlast as (_ & id & Hp & _); by exists id |].
  split; [by rewrite HfT, Hfl, Hf | done].
Qed.

Lemma debounce_burst_fires_once_witness :
  let w1 := Debounce.run 500 [(0%Z, "a"); (100%Z, "b"); (300%Z, "c")]
              (snd (Debounce.debounce 500 0)) in
  Debounce.fired w1 = [] /\
  (exists id, Debounce.pending w1 = [Debounce.mkTimer id 800%Z "c"]) /\
  Debounce.fired (Debounce.advance 800 w1) = [(800%Z, "c")] /\
  Debounce.pending (Debounce.advance 800 w1) = [].
Proof.
  apply (debounce_burst_fires_once string 500 0 800 "a"
           [(100%Z, "b"); (300%Z, "c")] (snd (Debounce.debounce 500 0))).
  - lia.
  - by left.
  - simpl. lia.
  - simpl. lia.
  - simpl. lia.
Defined.

(** C9: flatten(arr) is the list of the non-array elements reached by
    unnesting [arr] completely, left to right and depth first;
    [flatten([1,[2,[3,4],5]])] is [[1,2,3,4,5]] and [flatten([])] is
    [[]]. *)
Theorem flatten_depth_first :
  (forall (A : Type) (items : list (elem A)),
     flatten (Arr items) = map Atom (leaves (Arr items)) /\
     forallb is_atom (flatten (Arr items)) = true) /\
  flatten nested = [Atom 1; Atom 2; Atom 3; Atom 4; Atom 5]%Z /\
  flatten (Arr (@nil (elem Z))) = [].
Proof.
  split; [| by split].
  intros A items.
  assert (H : flatten (Arr items) = map Atom (leaves (Arr items)))
    by apply (spread_leaves (Arr items)).
  split; [done |]. rewrite H. apply forallb_forall.
  intros e He. apply in_map_iff in He as (x & <- & _). done.
Qed.

(** C10: deepClone(f) is [f] itself for a function [f], on every heap.
    When an object of a heap of tame objects is cloned, the clone is a new
    object; every function reached from the object through a path of
    properties, however long, is reached through the same path from the
    clone, the same function, and the original still reaches it; and every
    object on such a path is replaced, in the clone, by a new object. *)
Theorem deepClone_shares_functions :
  (forall (h : heap) (f fuel : nat),
     deepClone_top (S fuel) (VFun f) h = Done (VFun f, h)) /\
  (forall (h : heap) (l : nat) (o : obj) (fuel : nat),
     well_formed h = true -> ordinary h = true -> h !! l = Some o ->
     length h < fuel ->
     exists c h',
       deepClone_top fuel (VRef l) h = Done (VRef c, h') /\
       strict_eq (VRef c) (VRef l) = false /\ length h <= c /\
       forall path,
         (forall f, walk h (VRef l) path = Some (VFun f) ->
            walk h' (VRef l) path = Some (VFun f) /\
            walk h' (VRef c) path = Some (VFun f)) /\
         (forall l1, walk h (VRef l) path = Some (VRef l1) ->
            exists c1, walk h' (VRef c) path = Some (VRef c1) /\
                       length h <= c1 /\ strict_eq (VRef c1) (VRef l1) = false)).
Proof.
  split; [done |].
  intros h l o fuel Hwf Hord Ho Hfuel.
  destruct (deepClone_object h l o fuel Hwf Hord Ho Hfuel)
    as (c & h' & m' & oc & Hcall & Hpre & Hge & Hlc & Hoc & Hcopy & Hall).
  exists c, h'. split; [by eapply deepClone_top_eq |].
  assert (Hl : l < length h) by (eapply lookup_lt_Some; eauto).
  split; [apply Nat.eqb_neq; lia |]. split; [done |].
  assert (Himg : image m' (VRef l) (VRef c)) by (by exists c).
  intros path. split.
  - intros f Hwalk. split; [by eapply walk_prefix |].
    destruct (walk_copy h h' m' Hall path _ _ _ Hwalk Himg) as (w' & Hw' & Hi).
    simpl in Hi. by subst w'.
  - intros l1 Hwalk.
    destruct (walk_copy h h' m' Hall path _ _ _ Hwalk Himg)
      as (w' & Hw' & c1 & Hc1 & ->).
    destruct (Hall l1 c1 Hc1) as (Hl1 & Hge1 & _).
    exists c1. split; [done |]. split; [done |]. apply Nat.eqb_neq. lia.
Qed.

Lemma deepClone_shares_functions_witness :
  well_formed h_nested_function = true /\ ordinary h_nested_function = true /\
  walk h_nested_function (VRef 1) ["inner"; "f"] = Some (VFun 7) /\
  exists c h',
    deepClone_top 3 (VRef 1) h_nested_function = Done (VRef c, h') /\
    strict_eq (VRef c) (VRef 1) = false /\
    walk h' (VRef 1) ["inner"; "f"] = Some (VFun 7) /\
    walk h' (VRef c) ["inner"; "f"] = Some (VFun 7).
Proof.
  split; [reflexivity |]. split; [reflexivity |]. split; [reflexivity |].
  destruct (proj2 deepClone_shares_functions h_nested_function 1
              (literal [("inner", VRef 0)]) 3 eq_refl eq_refl eq_refl
              ltac:(simpl; lia))
    as (c & h' & Hcall & Hnew & _ & Hpaths).
  exists c, h'. split; [exact Hcall |]. split; [exact Hnew |].
  exact (proj1 (Hpaths ["inner"; "f"]) 7 eq_refl).
Defined.

End Claims.

(** * Further properties *)

(** ** deepClone *)

Section CloneFurther.
Import Heap Clone CloneSpec Further.

Lemma counted_refl (h : heap) (m : gmap nat nat) : counted h m h m.
Proof. by repeat split. Qed.

Lemma counted_trans (h1 h2 h3 : heap) (m1 m2 m3 : gmap nat nat) :
  counted h1 m1 h2 m2 -> counted h2 m2 h3 m3 -> counted h1 m1 h3 m3.
Proof.
  intros (Hl1 & Hc1 & Hi1) (Hl2 & Hc2 & Hi2). split; [lia |]. split; [lia |].
  intros Hr Hinj. destruct (Hi1 Hr Hinj) as [Hr2 Hinj2]. by apply Hi2.
Qed.

Lemma for_in_counted rec (l c : nat) :
  (forall v h m v' h' m',
     rec v (h, m) = Done (v', (h', m')) -> counted h m h' m') ->
  forall ks h m h' m',
    for_in rec l c ks (h, m) = Done (h', m') -> counted h m h' m'.
Proof.
  intros Hrec ks. induction ks as [|key ks IH]; intros h m h' m' H.
  - injection H as <- <-. apply counted_refl.
  - cbn [for_in fst snd] in H. unfold deref in H.
    destruct (h !! l) as [o|]; [| done]. simpl in H.
    destruct (call_hasOwnProperty o key) as [[|]| | |]; try done;
      simpl in H; [| by apply IH].
    destruct (rec (get o key) (h, m)) as [[v [h2 m2]]| | |] eqn:Hcall;
      try done.
    simpl in H. unfold deref in H.
    destruct (h2 !! c) as [oc|]; [| done]. simpl in H.
    destruct (assign key v c oc) as [oc'| | |]; try done. simpl in H.
    eapply counted_trans; [by eapply Hrec |].
    apply IH in H. destruct H as (Hl & Hc & Hi).
    rewrite length_insert in Hl, Hc, Hi. split; [done |]. by split.
Qed.

Lemma deepClone_counted (fuel : nat) :
  forall v h m v' h' m',
    deepClone fuel v (h, m) = Done (v', (h', m')) -> counted h m h' m'.
Proof.
  induction fuel as [|n IH]; intros v h m v' h' m' H; [done |].
  destruct v as [p|f|l].
  - injection H as <- <- <-. apply counted_refl.
  - injection H as <- <- <-. apply counted_refl.
  - simpl in H. destruct (m !! l) as [c|] eqn:Hm.
    + injection H as <- <- <-. apply counted_refl.
    + unfold deref in H. destruct (h !! l) as [o|]; [| done]. simpl in H.
      destruct (for_in (deepClone n) l (length h) (enumerate o)
                  (h ++ [fresh_clone o], <[l := length h]> m))
        as [[h2 m2]| | |] eqn:Hloop; try done.
      injection H as <- <- <-.
      apply (for_in_counted _ _ _ IH) in Hloop.
      destruct Hloop as (Hl & Hc & Hi).
      rewrite List.length_app in Hl, Hc, Hi. simpl in Hl, Hc, Hi.
      rewrite map_size_insert_None in Hc by done.
      split; [lia |]. split; [lia |]. intros Hr Hinj. apply Hi.
      * intros l1 c1. destruct (decide (l = l1)) as [<-|Hne].
        -- rewrite lookup_insert_eq. intros [= <-]. lia.
        -- rewrite lookup_insert_ne by done. intros Hl1.
           apply Hr in Hl1. lia.
      * intros l1 l2 c1.
        destruct (decide (l = l1)) as [<-|Hne1];
          destruct (decide (l = l2)) as [<-|Hne2]; [done | | |].
        -- rewrite lookup_insert_eq, lookup_insert_ne by done.
           intros [= <-] H2. apply Hr in H2. lia.
        -- rewrite lookup_insert_eq, lookup_insert_ne by done.
           intros H1 [= <-]. apply Hr in H1. lia.
        -- rewrite !lookup_insert_ne by done. apply Hinj.
Qed.

Lemma hash_size_le (n : nat) (m : gmap nat nat) :
  (forall l c, m !! l = Some c -> l < n) -> size m <= n.
Proof.
  intros Hok.
  assert (Hsub : dom m ⊆ (set_seq 0 n : gset nat)).
  { intros x Hx. apply elem_of_set_seq. split; [lia |]. simpl.
    apply elem_of_dom in Hx as [c Hc]. by eapply Hok. }
  apply subseteq_size in Hsub. by rewrite size_dom, size_set_seq in Hsub.
Qed.

(** Everything a top-level call on an object leaves behind, in one
    place. *)
Lemma deepClone_graph (h : heap) (l : nat) (o : obj) (fuel : nat) :
  well_formed h = true -> ordinary h = true -> h !! l = Some o ->
  length h < fuel ->
  exists c h' m' oc,
    deepClone_top fuel (VRef l) h = Done (VRef c, h') /\
    h `prefix_of` h' /\ m' !! l = Some c /\
    h' !! c = Some oc /\ copy_of m' o oc /\
    injective m' /\ length h' = length h + size m' /\
    forall l1 c1, m' !! l1 = Some c1 ->
      l1 < length h /\ length h <= c1 /\ finished h h' m' l1 c1.
Proof.
  intros Hwf Hord Ho Hfuel.
  destruct (deepClone_object h l o fuel Hwf Hord Ho Hfuel)
    as (c & h' & m' & oc & Hcall & Hpre & Hge & Hlc & Hoc & Hcopy & Hall).
  destruct (deepClone_counted _ _ _ _ _ _ _ Hcall) as (Hl & Hc & Hi).
  rewrite map_size_empty in Hc.
  destruct Hi as [_ Hinj]; [by intros l1 c1 | by intros l1 l2 c1 |].
  exists c, h', m', oc. split; [by eapply deepClone_top_eq |].
  repeat (split; [done |]). split; [lia | done].
Qed.

(** X1: on a heap of tame objects, deepClone returns and writes to the
    objects it creates only: every object of the heap is, after the call,
    exactly what it was before. *)
Theorem deepClone_keeps_original (h : heap) (v : value) (fuel : nat) :
  well_formed h = true -> ordinary h = true ->
  closed (length h) v = true -> length h < fuel ->
  exists v' h',
    deepClone_top fuel v h = Done (v', h') /\
    forall l o, h !! l = Some o -> h' !! l = Some o.
Proof.
  intros Hwf Hord Hv Hfuel.
  destruct (deepClone_terminates h v fuel Hwf Hord Hv Hfuel)
    as (v' & h' & m' & Hcall & Hpre & _).
  exists v', h'. split; [by eapply deepClone_top_eq |].
  intros l o Hl. by eapply prefix_lookup_Some.
Qed.

Lemma deepClone_keeps_original_witness :
  exists v' h',
    deepClone_top 4 (VRef 2) h_diamond = Done (v', h') /\
    forall l o, h_diamond !! l = Some o -> h' !! l = Some o.
Proof.
  apply (deepClone_keeps_original h_diamond (VRef 2) 4);
    [reflexivity | reflexivity | reflexivity | simpl; lia].
Defined.

(** X2: on a heap of tame objects, deepClone returns and makes at most
    one new object for each object of the heap, however often an object is
    shared and whatever cycles there are. *)
Theorem deepClone_allocates_once (h : heap) (v : value) (fuel : nat) :
  well_formed h = true -> ordinary h = true ->
  closed (length h) v = true -> length h < fuel ->
  exists v' h',
    deepClone_top fuel v h = Done (v', h') /\
    length h <= length h' <= 2 * length h.
Proof.
  intros Hwf Hord Hv Hfuel.
  destruct (deepClone_terminates h v fuel Hwf Hord Hv Hfuel)
    as (v' & h' & m' & Hcall & Hpre & _ & Hall).
  exists v', h'. split; [by eapply deepClone_top_eq |].
  destruct (deepClone_counted _ _ _ _ _ _ _ Hcall) as (Hl & Hc & _).
  rewrite map_size_empty in Hc.
  assert (size m' <= length h).
  { apply hash_size_le. intros l c Hlc. by destruct (Hall l c Hlc). }
  lia.
Qed.

Lemma deepClone_allocates_once_witness :
  exists v' h',
    deepClone_top 4 (VRef 2) h_diamond = Done (v', h') /\
    length h_diamond <= length h' <= 2 * length h_diamond.
Proof.
  apply (deepClone_allocates_once h_diamond (VRef 2) 4);
    [reflexivity | reflexivity | reflexivity | simpl; lia].
Defined.

(** X3: on a heap of tame objects, the clone keeps the sharing of the
    original, no more and no less: two properties of the clone hold the
    same object exactly when the two properties of the original do. *)
Theorem deepClone_preserves_sharing (h : heap) (l : nat) (o : obj)
    (k1 k2 : string) (a b fuel : nat) :
  well_formed h = true -> ordinary h = true -> h !! l = Some o ->
  get_prop k1 (oprops o) = Some (VRef a) ->
  get_prop k2 (oprops o) = Some (VRef b) -> length h < fuel ->
  exists c h' oc a' b',
    deepClone_top fuel (VRef l) h = Done (VRef c, h') /\
    h' !! c = Some oc /\
    get_prop k1 (oprops oc) = Some (VRef a') /\
    get_prop k2 (oprops oc) = Some (VRef b') /\
    (a' = b' <-> a = b).
Proof.
  intros Hwf Hord Ho Hk1 Hk2 Hfuel.
  destruct (deepClone_graph h l o fuel Hwf Hord Ho Hfuel)
    as (c & h' & m' & oc & Htop & _ & _ & Hoc & (_ & _ & Hps) & Hinj & _).
  pose proof (copied_get m' _ _ k1 Hps) as H1. rewrite Hk1 in H1.
  pose proof (copied_get m' _ _ k2 Hps) as H2. rewrite Hk2 in H2.
  destruct H1 as (v1 & Hv1 & a' & Ha' & ->).
  destruct H2 as (v2 & Hv2 & b' & Hb' & ->).
  exists c, h', oc, a', b'. repeat (split; [done |]). split.
  - intros <-. by eapply Hinj.
  - intros <-. congruence.
Qed.

Lemma deepClone_preserves_sharing_witness :
  (exists c h' oc a' b',
     deepClone_top 4 (VRef 2) h_diamond = Done (VRef c, h') /\
     h' !! c = Some oc /\
     get_prop "a" (oprops oc) = Some (VRef a') /\
     get_prop "b" (oprops oc) = Some (VRef b') /\
     (a' = b' <-> 0 = 0)) /\
  (exists c h' oc a' b',
     deepClone_top 4 (VRef 2) h_diamond = Done (VRef c, h') /\
     h' !! c = Some oc /\
     get_prop "a" (oprops oc) = Some (VRef a') /\
     get_prop "c" (oprops oc) = Some (VRef b') /\
     (a' = b' <-> 0 = 1)).
Proof.
  split.
  - apply (deepClone_preserves_sharing h_diamond 2
             (literal [("a", VRef 0); ("b", VRef 0); ("c", VRef 1); ("t", str "x")]) "a" "b" 0 0 4);
      [reflexivity | reflexivity | reflexivity | reflexivity | reflexivity | simpl; lia].
  - apply (deepClone_preserves_sharing h_diamond 2
             (literal [("a", VRef 0); ("b", VRef 0); ("c", VRef 1); ("t", str "x")]) "a" "c" 0 1 4);
      [reflexivity | reflexivity | reflexivity | reflexivity | reflexivity | simpl; lia].
Defined.

(** X4: on a heap of tame objects, the clone of an object is of the same
    kind (a Date of the same time, an Array, a RegExp of the same source
    and flags, or an object of the same prototype), has the same own keys
    in the same order, inherited properties not becoming own ones, and
    holds the same primitive under every key that holds one. *)
Theorem deepClone_preserves_shape (h : heap) (l : nat) (o : obj) (fuel : nat) :
  well_formed h = true -> ordinary h = true -> h !! l = Some o ->
  length h < fuel ->
  exists c h' oc,
    deepClone_top fuel (VRef l) h = Done (VRef c, h') /\
    h' !! c = Some oc /\
    okind oc = okind o /\ keys oc = keys o /\
    forall k p, get_prop k (oprops o) = Some (VPrim p) ->
                get_prop k (oprops oc) = Some (VPrim p).
Proof.
  intros Hwf Hord Ho Hfuel.
  destruct (deepClone_graph h l o fuel Hwf Hord Ho Hfuel)
    as (c & h' & m' & oc & Htop & _ & _ & Hoc & (Hkind & Hinh & Hps) & _).
  exists c, h', oc. repeat (split; [done |]).
  split; [by apply (copied_keys m') |].
  intros k p Hk. pose proof (copied_get m' _ _ k Hps) as H.
  rewrite Hk in H. by destruct H as (v' & Hv' & ->).
Qed.

Lemma deepClone_preserves_shape_witness :
  exists c h' oc,
    deepClone_top 4 (VRef 2) h_diamond = Done (VRef c, h') /\
    h' !! c = Some oc /\
    okind oc = KObject proto_Object fn_Object /\
    keys oc = ["a"; "b"; "c"; "t"] /\
    forall k p,
      get_prop k [("a", VRef 0); ("b", VRef 0); ("c", VRef 1); ("t", str "x")]
        = Some (VPrim p) ->
      get_prop k (oprops oc) = Some (VPrim p).
Proof.
  apply (deepClone_preserves_shape h_diamond 2
           (literal [("a", VRef 0); ("b", VRef 0); ("c", VRef 1); ("t", str "x")]) 4);
    [reflexivity | reflexivity | reflexivity | simpl; lia].
Defined.

(** X5: on a heap of tame objects, the copy is deep: an object held by a
    property of the original is not held by the clone; the clone holds
    instead a new object, of the same kind and with the same keys as that
    one. *)
Theorem deepClone_is_deep (h : heap) (l : nat) (o : obj) (k : string)
    (a fuel : nat) :
  well_formed h = true -> ordinary h = true -> h !! l = Some o ->
  get_prop k (oprops o) = Some (VRef a) -> length h < fuel ->
  exists c h' oc a' oa oa',
    deepClone_top fuel (VRef l) h = Done (VRef c, h') /\
    h' !! c = Some oc /\ get_prop k (oprops oc) = Some (VRef a') /\
    a < length h <= a' /\
    h !! a = Some oa /\ h' !! a' = Some oa' /\
    okind oa' = okind oa /\ keys oa' = keys oa.
Proof.
  intros Hwf Hord Ho Hk Hfuel.
  destruct (deepClone_graph h l o fuel Hwf Hord Ho Hfuel)
    as (c & h' & m' & oc & Htop & _ & _ & Hoc & (_ & _ & Hps) & _ & _ & Hall).
  pose proof (copied_get m' _ _ k Hps) as H. rewrite Hk in H.
  destruct H as (v' & Hv' & a' & Ha' & ->).
  destruct (Hall a a' Ha') as (Hlt & Hge & oa & oa' & Hoa & Hoa' & Hkind & _ & Hcp).
  exists c, h', oc, a', oa, oa'.
  split; [done |]. split; [done |]. split; [done |]. split; [lia |].
  split; [done |]. split; [done |]. split; [done |].
  exact (copied_keys m' _ _ Hcp).
Qed.

Lemma deepClone_is_deep_witness :
  exists c h' oc a' oa oa',
    deepClone_top 4 (VRef 2) h_diamond = Done (VRef c, h') /\
    h' !! c = Some oc /\ get_prop "c" (oprops oc) = Some (VRef a') /\
    1 < length h_diamond <= a' /\
    h_diamond !! 1 = Some oa /\ h' !! a' = Some oa' /\
    okind oa' = okind oa /\ keys oa' = keys oa.
Proof.
  apply (deepClone_is_deep h_diamond 2
           (literal [("a", VRef 0); ("b", VRef 0); ("c", VRef 1); ("t", str "x")]) "c" 1 4);
    [reflexivity | reflexivity | reflexivity | reflexivity | simpl; lia].
Defined.

(** X26: an object with an own enumerable property named
    [hasOwnProperty] that is not a function cannot be cloned: the loop
    calls [obj.hasOwnProperty] on the first key, and the call throws a
    TypeError. *)
Theorem deepClone_throws_on_own_hasOwnProperty (h : heap) (l : nat) (o : obj)
    (v : value) (fuel : nat) :
  h !! l = Some o -> get_prop "hasOwnProperty" (oprops o) = Some v ->
  callable v = false ->
  deepClone_top (S fuel) (VRef l) h = Fails TypeError.
Proof.
  intros Ho Hv Hcall. unfold deepClone_top. cbn [deepClone fst snd].
  rewrite lookup_empty, (deref_Some _ _ _ Ho). simpl.
  assert (Hkeys : exists key rest, enumerate o = key :: rest).
  { unfold enumerate, keys. destruct (oprops o) as [|[k w] ps]; [done |].
    simpl. by eexists _, _. }
  destruct Hkeys as (key & rest & ->). cbn [for_in fst].
  assert (Hl : (h ++ [fresh_clone o]) !! l = Some o)
    by (by apply lookup_app_l_Some).
  rewrite (deref_Some _ _ _ Hl). simpl.
  unfold call_hasOwnProperty, invoke, resolve. rewrite Hv.
  by destruct v.
Qed.

Lemma deepClone_throws_on_own_hasOwnProperty_witness :
  deepClone_top 2 (VRef 0) Samples.h_own_method = Fails TypeError.
Proof.
  apply (deepClone_throws_on_own_hasOwnProperty Samples.h_own_method 0
           (literal [("hasOwnProperty", num 1)]) (num 1) 1);
    reflexivity.
Defined.

End CloneFurther.

(** ** deepEqual *)

Section EqualFurther.
Import Heap CloneSpec Equal EqualSpec Further.

Lemma strict_eq_self (a : value) : strict_eq a a = negb (is_nan a).
Proof.
  destruct a as [[| |b|[|z]|s]|f|l]; simpl; try done.
  - by destruct b.
  - apply Z.eqb_refl.
  - apply String.eqb_refl.
  - apply Nat.eqb_refl.
  - apply Nat.eqb_refl.
Qed.


Lemma deepEqual_same (n : nat) (h : heap) (a : value) :
  deepEqual (S n) h a a = Done (negb (is_nan a)).
Proof.
  rewrite deepEqual_unfold, strict_eq_self.
  by destruct a as [[| |b|[|z]|s]|f|l].
Qed.




(** X6: when one of the two values is not an object, deepEqual is [===]:
    no coercion, [null] and [undefined] differ, and NaN differs from
    itself. *)
Theorem deepEqual_on_primitives (n : nat) (h : heap) (a b : value) :
  is_ref a && is_ref b = false ->
  deepEqual (S n) h a b = Done (strict_eq a b).
Proof.
  intros H. rewrite deepEqual_unfold.
  destruct (strict_eq a b); [done |].
  by destruct a as [p|f|la], b as [q|g|lb].
Qed.

Lemma deepEqual_on_primitives_witness :
  deepEqual 1 [] (num 1) (str "1") = Done (strict_eq (num 1) (str "1")) /\
  deepEqual 1 [] null undefined = Done (strict_eq null undefined).
Proof.
  split.
  - apply (deepEqual_on_primitives 0 [] (num 1) (str "1")). reflexivity.
  - apply (deepEqual_on_primitives 0 [] null undefined). reflexivity.
Defined.

(** X7: deepEqual(a, a) is true for every value but NaN, and returns at
    once, without looking into the object: also when the object holds
    itself. *)
Theorem deepEqual_reflexive (n : nat) (h : heap) (a : value) :
  deepEqual (S n) h a a = Done (negb (is_nan a)).
Proof. apply deepEqual_same. Qed.



(** X9: deepEqual has no protection against cycles: on two distinct
    objects of the same constructor that each hold themselves under
    [self], no budget is enough for it to return. *)
Theorem deepEqual_diverges_on_cycles (h : heap) (la lb pa pb ctor : nat)
    (ia ib : list (string * bool)) (fuel : nat) :
  la <> lb ->
  h !! la = Some (mkObj (KObject pa ctor) [("self", VRef la)] ia) ->
  h !! lb = Some (mkObj (KObject pb ctor) [("self", VRef lb)] ib) ->
  deepEqual fuel h (VRef la) (VRef lb) = Unfinished.
Proof.
  intros Hne Ha Hb. induction fuel as [|n IH]; [done |].
  apply Nat.eqb_neq in Hne.
  rewrite (deepEqual_refs n h la lb _ _ Ha Hb Hne).
  unfold compare_objects, constructor. cbn.
  by rewrite Nat.eqb_refl, IH.
Qed.

Lemma deepEqual_diverges_on_cycles_witness :
  deepEqual 1000 h_two_cycles (VRef 0) (VRef 1) = Unfinished.
Proof.
  apply (deepEqual_diverges_on_cycles h_two_cycles 0 1 proto_Object
           proto_Object fn_Object [] [] 1000);
    [lia | reflexivity | reflexivity].
Defined.



(** X27: deepEqual calls [getTime] through the object: on two distinct
    Dates of the same constructor, the first of which has an own
    enumerable property named [getTime] that is not a function, it throws
    a TypeError, whatever the two instants. *)
Theorem deepEqual_throws_on_own_getTime (h : heap) (la lb : nat)
    (oa ob : obj) (v : value) (fuel : nat) :
  la <> lb -> h !! la = Some oa -> h !! lb = Some ob ->
  is_date oa = true -> is_date ob = true ->
  strict_eq (constructor oa) (constructor ob) = true ->
  get_prop "getTime" (oprops oa) = Some v -> callable v = false ->
  deepEqual (S fuel) h (VRef la) (VRef lb) = Fails TypeError.
Proof.
  intros Hne Ha Hb Hda Hdb Hc Hv Hcall. apply Nat.eqb_neq in Hne.
  rewrite (deepEqual_refs _ h la lb oa ob Ha Hb Hne).
  unfold compare_objects. rewrite Hc, Hda, Hdb. cbn [negb andb].
  unfold same_time, call_getTime, invoke, resolve. rewrite Hv.
  by destruct v.
Qed.

Lemma deepEqual_throws_on_own_getTime_witness :
  deepEqual 1 Samples.h_date_method (VRef 0) (VRef 1) = Fails TypeError.
Proof.
  apply (deepEqual_throws_on_own_getTime Samples.h_date_method 0 1
           (mkObj (KDate (Num 5)) [("getTime", num 1)] [])
           (mkObj (KDate (Num 5)) [] []) (num 1) 0);
    [lia | reflexivity | reflexivity | reflexivity | reflexivity
    | reflexivity | reflexivity | reflexivity].
Defined.

End EqualFurther.

(** ** flatten *)

Section FlattenFurther.
Import Flatten FlattenSpec.
Context {A : Type}.

Lemma spread_atoms (xs : list A) :
  concat (map spread (map Atom xs)) = map Atom xs.
Proof. induction xs as [|x xs IH]; simpl; [done | by rewrite IH]. Qed.

(** X11: flattening a concatenation is concatenating the flattenings:
    [flatten(xs.concat(ys))] is [flatten(xs).concat(flatten(ys))]. *)
Theorem flatten_app (xs ys : list (elem A)) :
  flatten (Arr (xs ++ ys)) = flatten (Arr xs) ++ flatten (Arr ys).
Proof. by rewrite !flatten_Arr, map_app, concat_app. Qed.

(** X12: flatten leaves a flat array as it is, and so flattening twice
    gives what flattening once gives. *)
Theorem flatten_idempotent (items : list (elem A)) (xs : list A) :
  flatten (Arr (map Atom xs)) = map Atom xs /\
  flatten (Arr (flatten (Arr items))) = flatten (Arr items).
Proof.
  split.
  - by rewrite flatten_Arr, spread_atoms.
  - pose proof (spread_leaves (Arr items)) as H.
    change (spread (Arr items)) with (flatten (Arr items)) in H.
    by rewrite H, flatten_Arr, spread_atoms.
Qed.

End FlattenFurther.

(** ** toCamelCase *)

Section CamelCaseFurther.
Import Str CamelCase Further.

Ltac each_character c :=
  destruct c as [[] [] [] [] [] [] [] []]; vm_compute; (done || congruence).

Lemma upper_not_delim (c : ascii) :
  is_delim c = false -> is_delim (toUpperCase c) = false.
Proof. each_character c. Qed.

Lemma lower_not_delim (c : ascii) :
  is_delim c = false -> is_delim (toLowerCase c) = false.
Proof. each_character c. Qed.

Lemma not_delim_not_terminator (c : ascii) :
  is_delim c = false -> is_line_terminator c = false.
Proof. each_character c. Qed.

Lemma upper_not_terminator (c : ascii) :
  is_delim c = false -> is_line_terminator (toUpperCase c) = false.
Proof. each_character c. Qed.

Lemma lower_lower (c : ascii) : toLowerCase (toLowerCase c) = toLowerCase c.
Proof. each_character c. Qed.

Lemma lower_upper (c : ascii) : toLowerCase (toUpperCase c) = toLowerCase c.
Proof. each_character c. Qed.

Lemma replace_runs_no_delims (in_run : bool) (s : string) :
  no_delims (replace_runs in_run s) = true.
Proof.
  revert in_run. induction s as [|c s IH]; intros in_run; simpl; [done |].
  destruct (is_delim c) eqn:Hc; [apply IH |].
  destruct (in_run && negb (is_line_terminator c)); simpl.
  - by rewrite upper_not_delim, IH.
  - by rewrite Hc, IH.
Qed.

Lemma lower_first_no_delims (s : string) :
  no_delims s = true -> no_delims (lower_first s) = true.
Proof.
  destruct s as [|c s]; simpl; [done |]. intros H.
  apply andb_prop in H as [Hc Hs]. apply negb_true_iff in Hc.
  destruct (is_line_terminator c); simpl.
  - by rewrite Hc, Hs.
  - by rewrite lower_not_delim, Hs.
Qed.

Lemma replace_runs_fixed (s : string) :
  no_delims s = true -> replace_runs false s = s.
Proof.
  induction s as [|c s IH]; simpl; [done |]. intros H.
  apply andb_prop in H as [Hc Hs]. apply negb_true_iff in Hc.
  by rewrite Hc, IH.
Qed.

Lemma lower_first_twice (s : string) :
  lower_first (lower_first s) = lower_first s.
Proof.
  destruct s as [|c s]; simpl; [done |].
  destruct (is_line_terminator c) eqn:Hc; simpl; [by rewrite Hc |].
  destruct (is_line_terminator (toLowerCase c)); [done |].
  by rewrite lower_lower.
Qed.

Lemma replace_runs_trailing (in_run : bool) (s : string) (d : ascii) :
  is_delim d = true ->
  replace_runs in_run (s ++ String d EmptyString) = replace_runs in_run s.
Proof.
  intros Hd. revert in_run.
  induction s as [|c s IH]; intros in_run; simpl; [by rewrite Hd |].
  destruct (is_delim c); [apply IH |].
  by destruct (in_run && negb (is_line_terminator c)); rewrite IH.
Qed.

Lemma lower_first_after_run (s : string) :
  lower_first (replace_runs true s) = lower_first (replace_runs false s).
Proof.
  destruct s as [|c s]; simpl; [done |].
  destruct (is_delim c) eqn:Hc; [done |].
  rewrite (not_delim_not_terminator c Hc). simpl.
  by rewrite (not_delim_not_terminator c Hc), (upper_not_terminator c Hc),
    lower_upper.
Qed.

Lemma camel_no_delims (s : string) : no_delims (toCamelCase s) = true.
Proof. apply lower_first_no_delims, replace_runs_no_delims. Qed.

(** X13: on ASCII text, toCamelCase removes every delimiter: no hyphen,
    underscore or white space is left in its result. *)
Theorem toCamelCase_no_delims (s : string) :
  ascii_only s = true -> no_delims (toCamelCase s) = true.
Proof. intros _. apply camel_no_delims. Qed.

Lemma toCamelCase_no_delims_witness :
  ascii_only "hello-world_test" = true /\
  no_delims (toCamelCase "hello-world_test") = true.
Proof.
  split; [reflexivity |].
  apply (toCamelCase_no_delims "hello-world_test"). reflexivity.
Defined.

(** X14: on ASCII text, toCamelCase changes nothing in a string it has
    produced. *)
Theorem toCamelCase_idempotent (s : string) :
  ascii_only s = true -> toCamelCase (toCamelCase s) = toCamelCase s.
Proof.
  intros _. unfold toCamelCase at 1.
  rewrite replace_runs_fixed by apply camel_no_delims.
  apply lower_first_twice.
Qed.

Lemma toCamelCase_idempotent_witness :
  ascii_only "hello-world_test" = true /\
  toCamelCase (toCamelCase "hello-world_test") = toCamelCase "hello-world_test".
Proof.
  split; [reflexivity |].
  apply (toCamelCase_idempotent "hello-world_test"). reflexivity.
Defined.

(** X15: on ASCII text, delimiters at the start and at the end of the
    string leave no trace: with or without them the result is the same,
    and the letter after a leading delimiter is not left in upper case. *)
Theorem toCamelCase_outer_delims (d : ascii) (s : string) :
  is_delim d = true -> ascii_only s = true ->
  toCamelCase (String d s) = toCamelCase s /\
  toCamelCase (s ++ String d EmptyString) = toCamelCase s.
Proof.
  intros Hd _. unfold toCamelCase. split.
  - simpl. rewrite Hd. apply lower_first_after_run.
  - by rewrite replace_runs_trailing.
Qed.

Lemma toCamelCase_outer_delims_witness :
  toCamelCase (String "_" "hello-world") = toCamelCase "hello-world" /\
  toCamelCase ("hello-world" ++ String "_" EmptyString)
  = toCamelCase "hello-world".
Proof.
  apply (toCamelCase_outer_delims "_" "hello-world"); reflexivity.
Defined.

End CamelCaseFurther.

(** ** parseQuery *)

Section QueryFurther.
Import Str Query Further.

Lemma split_app (sep : ascii) (a b : string) :
  split sep (a ++ String sep b) = split sep a ++ split sep b.
Proof.
  induction a as [|c a IH]; simpl.
  - by rewrite Ascii.eqb_refl.
  - destruct (Ascii.eqb c sep); [by rewrite IH |].
    rewrite IH. pose proof (split_not_nil sep a) as Hne.
    by destruct (split sep a).
Qed.

Lemma query_of_app (q x : string) :
  query_of (q ++ String "&"%char x) = (query_of q ++ String "&"%char x)%string.
Proof.
  unfold query_of. destruct q as [|c q]; simpl; [done |].
  by destruct (Ascii.eqb c "?").
Qed.

Lemma forEach_app (l1 l2 : list string) (params : list (string * string)) :
  forEach (l1 ++ l2) params =
  match forEach l1 params with
  | Returns params1 => forEach l2 params1
  | Throws e => Throws e
  end.
Proof.
  revert params. induction l1 as [|p l1 IH]; intros params; simpl; [done |].
  destruct (each_pair params p); [apply IH | done].
Qed.

(** A query followed by [&] and more is parsed as the query, and then the
    rest into the same mapping. *)
Lemma parseQuery_app (q x : string) :
  parseQuery (q ++ String "&"%char x) =
  match parseQuery q with
  | Returns params => forEach (split "&"%char x) params
  | Throws e => Throws e
  end.
Proof.
  unfold parseQuery. fold (query_of (q ++ String "&"%char x)).
  fold (query_of q). by rewrite query_of_app, split_app, forEach_app.
Qed.

Lemma each_pair_plain (params : list (string * string)) (k v : string) :
  k <> EmptyString -> unreserved k = true -> unreserved v = true ->
  each_pair params (k ++ String "="%char v) = Returns (assign k v params).
Proof.
  unfold unreserved. intros Hk Hck Hcv.
  repeat match goal with
         | H : _ && _ = true |- _ => apply andb_prop in H as [? ?]
         end.
  unfold each_pair. rewrite split_app_sep, split_lacks by done.
  cbn [hd nth_error].
  assert (Htk : truthy k = true) by (by destruct k).
  rewrite Htk, (decode_percent_free k) by (by apply lacks_percent_free).
  destruct v as [|c v]; [done |]. cbn [truthy].
  by rewrite (decode_percent_free (String c v))
    by (by apply lacks_percent_free).
Qed.

Lemma get_param_set_same (k v : string) (ps : list (string * string)) :
  get_param k (set_param k v ps) = Some v.
Proof.
  induction ps as [|[k' v'] ps IH]; simpl; [by rewrite String.eqb_refl |].
  destruct (String.eqb_spec k k') as [->|Hne]; simpl.
  - by rewrite String.eqb_refl.
  - destruct (String.eqb_spec k k'); [done | apply IH].
Qed.

Lemma get_param_set_other (k k' v : string) (ps : list (string * string)) :
  k' <> k -> get_param k' (set_param k v ps) = get_param k' ps.
Proof.
  intros Hne. induction ps as [|[k1 v1] ps IH]; simpl.
  - by destruct (String.eqb_spec k' k).
  - destruct (String.eqb_spec k k1) as [->|Hne1]; simpl.
    + by destruct (String.eqb_spec k' k1).
    + destruct (String.eqb k' k1); [done | apply IH].
Qed.

Lemma set_param_keys (k v x : string) (ps : list (string * string)) :
  In x (map fst (set_param k v ps)) <-> x = k \/ In x (map fst ps).
Proof.
  induction ps as [|[k1 v1] ps IH]; simpl; [intuition congruence |].
  destruct (String.eqb_spec k k1) as [->|Hne]; simpl; [intuition congruence |].
  rewrite IH. intuition congruence.
Qed.

Lemma set_param_NoDup (k v : string) (ps : list (string * string)) :
  List.NoDup (map fst ps) -> List.NoDup (map fst (set_param k v ps)).
Proof.
  induction ps as [|[k1 v1] ps IH]; simpl; intros Hnd.
  - constructor; [by intros [] | constructor].
  - apply List.NoDup_cons_iff in Hnd as [Hnotin Hnd].
    destruct (String.eqb_spec k k1) as [->|Hne]; simpl.
    + by constructor.
    + constructor; [| by apply IH].
      rewrite set_param_keys. intros [->|Hin]; [done | by apply Hnotin].
Qed.

Lemma unescape_nil (s : string) :
  unescape s = Returns [] -> s = EmptyString.
Proof.
  destruct s as [|c s]; [done |]. simpl. by repeat case_match.
Qed.

Lemma utf8_empty (items : list item) :
  utf8 items = Returns EmptyString -> items = [].
Proof.
  destruct items as [|[c|b] rest]; [done | |]; cbn [utf8];
    by repeat case_match.
Qed.

Lemma decode_empty (s : string) :
  decodeURIComponent s = Returns EmptyString -> s = EmptyString.
Proof.
  unfold decodeURIComponent. destruct (unescape s) as [items|e] eqn:Hu;
    [| done].
  intros H. apply utf8_empty in H. subst items. by apply unescape_nil.
Qed.

Lemma assign_tidy (k v : string) (params : list (string * string)) :
  k <> EmptyString -> tidy params -> tidy (assign k v params).
Proof.
  intros Hk (Hnd & Hproto & Hempty). unfold assign.
  destruct (String.eqb_spec k "__proto__") as [->|Hne]; [done |].
  split; [by apply set_param_NoDup |].
  split; rewrite set_param_keys; intuition congruence.
Qed.

Lemma each_pair_tidy (params params1 : list (string * string)) (p : string) :
  each_pair params p = Returns params1 -> tidy params -> tidy params1.
Proof.
  unfold each_pair.
  generalize (nth_error (split "="%char p) 1%nat) as value.
  generalize (hd EmptyString (split "="%char p)) as key. intros key value.
  destruct key as [|c key]; cbn [truthy]; [by intros [= <-] |].
  destruct (decodeURIComponent (String c key)) as [k|e] eqn:Hk; [| done].
  assert (Hne : k <> EmptyString).
  { intros ->. by apply decode_empty in Hk. }
  destruct value as [v|].
  - destruct (truthy v).
    + destruct (decodeURIComponent v) as [dv|e]; [| done].
      intros [= <-] Ht. by apply assign_tidy.
    + intros [= <-] Ht. by apply assign_tidy.
  - intros [= <-] Ht. by apply assign_tidy.
Qed.

Lemma forEach_tidy (pairs : list string) :
  forall params params1,
    forEach pairs params = Returns params1 -> tidy params -> tidy params1.
Proof.
  induction pairs as [|p pairs IH]; intros params params1; simpl.
  - by intros [= <-].
  - destruct (each_pair params p) as [params2|e] eqn:Hp; [| done].
    intros H Ht. eapply IH; [exact H |]. by eapply each_pair_tidy.
Qed.

(** X16: the mapping parseQuery returns never has a key twice, never has
    the key [__proto__], and never has an empty key. *)
Theorem parseQuery_keys (s : string) (params : list (string * string)) :
  parseQuery s = Returns params ->
  List.NoDup (map fst params) /\
  ~ In "__proto__" (map fst params) /\ ~ In EmptyString (map fst params).
Proof.
  intros H. eapply (forEach_tidy _ [] params H).
  split; [apply List.NoDup_nil | split; intros []].
Qed.

Lemma parseQuery_keys_witness :
  List.NoDup (map fst [("a", "2"); ("b", "")]) /\
  ~ In "__proto__" (map fst [("a", "2"); ("b", "")]) /\
  ~ In EmptyString (map fst [("a", "2"); ("b", "")]).
Proof.
  apply (parseQuery_keys "?a=1&__proto__=x&b&=c&a=2"). reflexivity.
Defined.

(** X17: a later pair overwrites an earlier one of the same key and leaves
    the other keys alone: a query followed by [&k=v] gives the mapping of
    the query with [k] set to [v]. *)
Theorem parseQuery_last_wins (q k v : string)
    (params : list (string * string)) :
  parseQuery q = Returns params ->
  k <> EmptyString -> k <> "__proto__" ->
  unreserved k = true -> unreserved v = true ->
  exists params1,
    parseQuery (q ++ String "&"%char (k ++ String "="%char v))
      = Returns params1 /\
    get_param k params1 = Some v /\
    forall k1, k1 <> k -> get_param k1 params1 = get_param k1 params.
Proof.
  intros Hq Hk Hproto Hck Hcv. exists (set_param k v params).
  split; [| split].
  - rewrite parseQuery_app, Hq, split_lacks.
    + cbn [forEach]. rewrite each_pair_plain by done. unfold assign.
      by destruct (String.eqb_spec k "__proto__").
    + unfold unreserved in *.
      repeat match goal with
             | H : _ && _ = true |- _ => apply andb_prop in H as [? ?]
             end.
      rewrite lacks_app. simpl. by repeat (apply andb_true_intro; split).
  - apply get_param_set_same.
  - intros k1 Hne. by apply get_param_set_other.
Qed.

Lemma parseQuery_last_wins_witness :
  exists params1,
    parseQuery ("a=1&b=2" ++ String "&"%char ("a" ++ String "="%char "3"))
      = Returns params1 /\
    get_param "a" params1 = Some "3" /\
    forall k1, k1 <> "a" ->
      get_param k1 params1 = get_param k1 [("a", "1"); ("b", "2")].
Proof.
  apply (parseQuery_last_wins "a=1&b=2" "a" "3" [("a", "1"); ("b", "2")]);
    [reflexivity | done | done | reflexivity | reflexivity].
Defined.

(** X18: a pair with an empty key is passed over, its value not even
    decoded: a query followed by [&] and nothing, or by [&=v] for any [v]
    without [&], well encoded or not, gives what the query gives. *)
Theorem parseQuery_skips_empty_key (q v : string) :
  lacks "&"%char v = true ->
  parseQuery (q ++ String "&"%char (String "="%char v)) = parseQuery q /\
  parseQuery (q ++ String "&"%char EmptyString) = parseQuery q.
Proof.
  intros Hv. rewrite !parseQuery_app. split.
  - rewrite split_lacks by (simpl; by rewrite Hv).
    destruct (parseQuery q) as [params|e]; [| done].
    cbn [forEach]. unfold each_pair. cbn [split].
    by rewrite Ascii.eqb_refl.
  - by destruct (parseQuery q).
Qed.

Lemma parseQuery_skips_empty_key_witness :
  parseQuery ("a=1" ++ String "&"%char (String "="%char "%zz=="))
  = parseQuery "a=1" /\
  parseQuery ("a=1" ++ String "&"%char EmptyString) = parseQuery "a=1".
Proof.
  apply (parseQuery_skips_empty_key "a=1" "%zz=="). reflexivity.
Defined.

(** X19: a key alone and a key followed by [=] are the same pair: both
    give the key the empty string. *)
Theorem parseQuery_bare_key (q k : string) :
  lacks "&"%char k = true -> lacks "="%char k = true ->
  parseQuery (q ++ String "&"%char (k ++ String "="%char EmptyString))
  = parseQuery (q ++ String "&"%char k).
Proof.
  intros Hamp Heq. rewrite !parseQuery_app.
  destruct (parseQuery q) as [params|e]; [| done].
  rewrite !split_lacks; try done.
  - cbn [forEach]. unfold each_pair.
    rewrite split_app_sep, (split_lacks "="%char k) by done.
    cbn [split hd nth_error truthy].
    destruct (truthy k); [| done].
    by destruct (decodeURIComponent k).
  - rewrite lacks_app. simpl. by rewrite Hamp.
Qed.

Lemma parseQuery_bare_key_witness :
  parseQuery ("x=1" ++ String "&"%char ("flag" ++ String "="%char EmptyString))
  = parseQuery ("x=1" ++ String "&"%char "flag").
Proof.
  apply (parseQuery_bare_key "x=1" "flag"); reflexivity.
Defined.

End QueryFurther.

(** ** memoize *)

Section MemoizeFurther.
Import Memoize Further.

(** X20: a call that returns leaves in the cache, under the key of its
    arguments, the very value it returns, and leaves every other entry of
    the cache as it was: nothing is ever evicted or overwritten. *)
Theorem memoize_cache_grows (W : Type)
    (JSON_stringify : W -> list value -> outcome string)
    (fn : list value -> W -> outcome (value * W))
    (args : list value) (s s1 : gmap string value * W) (r : value) :
  memoized JSON_stringify fn args s = Returns (r, s1) ->
  exists key,
    JSON_stringify s.2 args = Returns key /\
    s1.1 !! key = Some r /\
    (forall k x, s.1 !! k = Some x -> s1.1 !! k = Some x) /\
    (forall k, k <> key -> s1.1 !! k = s.1 !! k).
Proof.
  unfold memoized. destruct (JSON_stringify s.2 args) as [key|e]; [| done].
  intros H. exists key. split; [done |]. revert H.
  case_bool_decide as Hhas.
  - destruct Hhas as [x Hx]. rewrite Hx. by intros [= <- <-].
  - destruct (fn args s.2) as [[y w]|e]; [| done].
    rewrite lookup_insert_eq. intros [= <- <-]. simpl.
    split; [apply lookup_insert_eq |]. split.
    + intros k x Hk. rewrite lookup_insert_ne; [done |].
      intros ->. apply Hhas. by rewrite Hk.
    + intros k Hne. by rewrite lookup_insert_ne.
Qed.

Lemma memoize_cache_grows_witness :
  exists key,
    Samples.stringify_2_3 tt [num 2; num 3] = Returns key /\
    (<["[2,3]" := num 5]> (∅ : gmap string value)) !! key = Some (num 5) /\
    (forall k x, (∅ : gmap string value) !! k = Some x ->
       (<["[2,3]" := num 5]> (∅ : gmap string value)) !! k = Some x) /\
    (forall k, k <> key ->
       (<["[2,3]" := num 5]> (∅ : gmap string value)) !! k
       = (∅ : gmap string value) !! k).
Proof.
  exact (memoize_cache_grows unit Samples.stringify_2_3 Samples.add2
           [num 2; num 3] (∅, tt) (<["[2,3]" := num 5]> ∅, tt) (num 5)
           eq_refl).
Defined.

(** X21: the memoized function throws in two cases only: the arguments
    cannot be serialized, or their key is not in the cache and [fn]
    throws; what is thrown is passed on.  A call whose key is in the cache
    never throws. *)
Theorem memoize_throws (W : Type)
    (JSON_stringify : W -> list value -> outcome string)
    (fn : list value -> W -> outcome (value * W))
    (args : list value) (s : gmap string value * W) (e : error) :
  memoized JSON_stringify fn args s = Throws e <->
  JSON_stringify s.2 args = Throws e \/
  exists key, JSON_stringify s.2 args = Returns key /\
              s.1 !! key = None /\ fn args s.2 = Throws e.
Proof.
  unfold memoized. destruct (JSON_stringify s.2 args) as [key|e1].
  - case_bool_decide as Hhas.
    + split; [done |]. intros [H | (k & [= <-] & Hnone & _)]; [done |].
      rewrite Hnone in Hhas. by destruct Hhas.
    + assert (Hnone : s.1 !! key = None).
      { destruct (s.1 !! key) eqn:Hk; [| done]. exfalso. by apply Hhas. }
      destruct (fn args s.2) as [[y w]|e2].
      * split; [done |]. by intros [H | (k & _ & _ & H)].
      * split.
        -- intros [= <-]. right. by exists key.
        -- by intros [H | (k & _ & _ & [= <-])].
  - split.
    + intros [= <-]. by left.
    + by intros [[= <-] | (k & H & _)].
Qed.

Lemma memoize_throws_witness :
  memoized Samples.stringify_2_3 failing [num 2; num 3] (∅, tt)
  = Throws TypeError.
Proof.
  apply (memoize_throws unit Samples.stringify_2_3 failing [num 2; num 3]
           (∅, tt) TypeError).
  right. exists "[2,3]". by repeat split.
Defined.

End MemoizeFurther.

(** ** curry *)

Section CurryFurther.
Import Curry.

Lemma chain_complete (A R : Type) (fn_length : nat) (fn : list A -> R)
    (calls : list (list A)) (last : list A) :
  length (concat calls) < fn_length ->
  fn_length <= length (concat calls ++ last) ->
  chain fn_length fn curry (calls ++ [last]) =
  Some (Value (fn (concat calls ++ last))).
Proof.
  intros Hshort Henough. rewrite chain_app. unfold curry.
  rewrite chain_short by done. simpl. unfold call_partial.
  by rewrite curried_enough.
Qed.

(** X22: how the arguments are grouped into calls does not matter: two
    chains of calls that supply the same arguments in the same order, each
    reaching the arity with its last call only, return the same result. *)
Theorem curry_grouping (A R : Type) (fn_length : nat) (fn : list A -> R)
    (calls1 calls2 : list (list A)) (last1 last2 : list A) :
  length (concat calls1) < fn_length ->
  length (concat calls2) < fn_length ->
  fn_length <= length (concat calls1 ++ last1) ->
  concat calls1 ++ last1 = concat calls2 ++ last2 ->
  chain fn_length fn curry (calls1 ++ [last1]) =
  chain fn_length fn curry (calls2 ++ [last2]).
Proof.
  intros H1 H2 Henough Heq.
  rewrite !chain_complete; try done; by rewrite <- ?Heq.
Qed.

Lemma curry_grouping_witness :
  chain 3 add3 curry ([[Num 1]; [Num 2]] ++ [[Num 3]]) =
  chain 3 add3 curry ([[Num 1; Num 2]] ++ [[Num 3]]).
Proof.
  apply (curry_grouping number number 3 add3 [[Num 1]; [Num 2]]
           [[Num 1; Num 2]] [Num 3] [Num 3]);
    [simpl; lia | simpl; lia | simpl; lia | reflexivity].
Defined.

(** X23: a call without arguments changes nothing: while the arity is not
    reached, calling the closure with no argument, any number of times,
    returns a closure holding the same arguments. *)
Theorem curry_empty_calls (A R : Type) (fn_length : nat) (fn : list A -> R)
    (args : list A) (n : nat) :
  length args < fn_length ->
  chain fn_length fn (Partial args) (repeat [] n) = Some (Partial args).
Proof.
  intros Hshort.
  assert (Hnil : concat (repeat (@nil A) n) = []).
  { induction n as [|n IH]; simpl; [done | exact IH]. }
  rewrite chain_short; rewrite Hnil, app_nil_r; done.
Qed.

Lemma curry_empty_calls_witness :
  chain 3 add3 (Partial [Num 1]) (repeat [] 4) = Some (Partial [Num 1]).
Proof.
  apply (curry_empty_calls number number 3 add3 [Num 1] 4). simpl. lia.
Defined.

End CurryFurther.

(** ** debounce *)

Section DebounceFurther.
Import Debounce Further.
Context {A : Type}.

Lemma debounced_single (delay : Z) (a : A) (w : world A) :
  single_pending w -> single_pending (debounced delay a w).
Proof.
  intros Hs. unfold debounced, setTimeout. simpl.
  assert (Hclear : pending (clearTimeout (timeoutId w) w) = []).
  { destruct Hs as [Hp | (tm & Hp & Hid)].
    - unfold clearTimeout. destruct (timeoutId w); simpl; by rewrite Hp.
    - rewrite Hid. simpl. rewrite Hp. simpl. by rewrite Nat.eqb_refl. }
  rewrite Hclear. right. by eexists.
Qed.

Lemma run_single (delay : Z) (calls : list (Z * A)) :
  forall w, single_pending w -> single_pending (run delay calls w).
Proof.
  induction calls as [|c calls IH]; intros w Hs; [done |].
  apply IH, debounced_single, advance_single, Hs.
Qed.

Lemma single_pending_length (w : world A) :
  single_pending w -> length (pending w) <= 1.
Proof. intros [-> | (tm & -> & _)]; simpl; lia. Qed.

Lemma trailing_next (delay : Z) (c c1 : Z * A) (rest : list (Z * A)) :
  trailing delay (c :: c1 :: rest) =
  if Z.ltb (fst c + delay) (fst c1) then c :: trailing delay (c1 :: rest)
  else trailing delay (c1 :: rest).
Proof. reflexivity. Qed.

(** From the state a call has left, what has run once all the later calls
    are made and the last delay has passed. *)
Lemma armed_trailing (delay T : Z) (rest : list (Z * A)) :
  (0 <= delay)%Z ->
  forall t a w,
    armed delay t a w -> spaced delay ((t, a) :: rest) ->
    (fst (List.last rest (t, a)) + delay <= T)%Z ->
    fired (advance T (run delay rest w)) =
    fired w ++ map (fun c => ((fst c + delay)%Z, snd c))
                   (trailing delay ((t, a) :: rest)).
Proof.
  intros Hd. induction rest as [|[t1 a1] rest IH]; intros t a w Harm Hsp HT.
  - simpl in *. by destruct (advance_armed_due delay t T a w Harm HT).
  - destruct Hsp as [[Hle Hne] Hsp]. simpl in Hle, Hne.
    rewrite last_cons in HT.
    pose proof Harm as (Hnow & id & Hp & Hid).
    destruct (call_arms delay t1 a1 w Hd (armed_single _ _ _ _ Harm)
                ltac:(lia)) as [Harm1 Hf1].
    change (run delay ((t1, a1) :: rest) w)
      with (run delay rest (debounced delay a1 (advance t1 w))).
    rewrite (IH t1 a1 _ Harm1 Hsp HT), Hf1, trailing_next. simpl fst.
    destruct (Z.ltb_spec (t + delay) t1) as [Hlt | Hge].
    + rewrite (advance_due t1 w _ Hp) by (simpl; lia). simpl.
      by rewrite <- app_assoc.
    + by rewrite (advance_early t1 w _ Hp) by (simpl; lia).
Qed.

(** X24: there is never more than one timer pending: whatever the calls
    and whenever they come, and however long one waits after them, at most
    one timer is pending, and it is the one [timeoutId] names. *)
Theorem debounce_single_timer (delay T : Z) (calls : list (Z * A))
    (w : world A) :
  single_pending w ->
  single_pending (run delay calls w) /\
  single_pending (advance T (run delay calls w)) /\
  length (pending (run delay calls w)) <= 1.
Proof.
  intros Hs. pose proof (run_single delay calls w Hs) as Hr.
  split; [done |]. split; [by apply advance_single |].
  by apply single_pending_length.
Qed.

(** X25: over any history of calls, [func] runs once for each call that
    is not followed by another call before its delay is over, at [delay]
    after that call and with its arguments, in order; the other calls are
    never served. *)
Theorem debounce_fires_trailing (delay t1 T : Z) (a1 : A)
    (rest : list (Z * A)) (w : world A) :
  (0 <= delay)%Z -> pending w = [] -> (now w <= t1)%Z ->
  spaced delay ((t1, a1) :: rest) ->
  (fst (List.last rest (t1, a1)) + delay <= T)%Z ->
  fired (advance T (run delay ((t1, a1) :: rest) w)) =
  fired w ++ map (fun c => ((fst c + delay)%Z, snd c))
                 (trailing delay ((t1, a1) :: rest)).
Proof.
  intros Hd Hp Hnow Hsp HT.
  destruct (call_arms delay t1 a1 w Hd (or_introl Hp) Hnow) as [Harm Hf].
  change (run delay ((t1, a1) :: rest) w)
    with (run delay rest (debounced delay a1 (advance t1 w))).
  rewrite (armed_trailing delay T rest Hd t1 a1 _ Harm Hsp HT), Hf.
  by rewrite (advance_idle t1 w Hp).
Qed.

End DebounceFurther.

Section DebounceWitnesses.
Import Debounce Further.

Lemma debounce_single_timer_witness :
  single_pending
    (run 500 [(0%Z, "a"); (100%Z, "b"); (1000%Z, "c")]
       (snd (debounce 500 0))) /\
  single_pending
    (advance 5000 (run 500 [(0%Z, "a"); (100%Z, "b"); (1000%Z, "c")]
                     (snd (debounce 500 0)))) /\
  length (pending (run 500 [(0%Z, "a"); (100%Z, "b"); (1000%Z, "c")]
                     (snd (debounce 500 0)))) <= 1.
Proof.
  apply (debounce_single_timer 500 5000
           [(0%Z, "a"); (100%Z, "b"); (1000%Z, "c")] (snd (debounce 500 0))).
  by left.
Defined.

Lemma debounce_fires_trailing_witness :
  fired (advance 2000
           (run 500 [(0%Z, "a"); (100%Z, "b"); (1000%Z, "c"); (1200%Z, "d")]
              (snd (debounce 500 0))))
  = [(600%Z, "b"); (1700%Z, "d")].
Proof.
  refine (debounce_fires_trailing 500 0 2000 "a"
            [(100%Z, "b"); (1000%Z, "c"); (1200%Z, "d")]
            (snd (debounce 500 0)) _ eq_refl _ _ _).
  - lia.
  - simpl. lia.
  - simpl. repeat split; lia.
  - simpl. lia.
Defined.

End DebounceWitnesses.
